(** * The chat webview of twinny (src/webview/chat.tsx)

    A shallow embedding of the [Chat] component's event handlers: the
    state they read and write (two refs, three React state cells, the
    editor), the calls they make to their collaborators (the VS Code
    message channel, the conversation-history hook, timers), and the
    JavaScript string operations they rely on; and of the part of the
    extension host's [Chat] class that streams a generation to the
    webview ([onPart], [abort], [llmStream]). *)

From Stdlib Require Import String Ascii.
From stdpp Require Import base numbers option list.

Set Default Proof Using "Type".

(** ** JavaScript strings

    A JavaScript string is a finite sequence of UTF-16 code units; the
    operations below are the ones of ECMA-262 that chat.tsx calls:
    [trim], [replace] with a string pattern, [split] with a one-unit
    separator. *)

Module JS.

Definition jsstring := list N.

(** An ASCII literal as a sequence of code units. *)
Fixpoint lit (s : string) : jsstring :=
  match s with
  | EmptyString => []
  | String a s' => N_of_ascii a :: lit s'
  end.

(** WhiteSpace and LineTerminator code units (ECMA-262 12.2, 12.3), the
    ones [String.prototype.trim] strips. *)
Definition isWhiteSpace (c : N) : bool :=
  ((9 <=? c) && (c <=? 13) || (c =? 32) || (c =? 160) || (c =? 5760)
   || (8192 <=? c) && (c <=? 8202) || (c =? 8232) || (c =? 8233)
   || (c =? 8239) || (c =? 8287) || (c =? 12288) || (c =? 65279))%N.

Fixpoint trimStart (s : jsstring) : jsstring :=
  match s with
  | [] => []
  | c :: s' => if isWhiteSpace c then trimStart s' else s
  end.

Definition trimEnd (s : jsstring) : jsstring := rev (trimStart (rev s)).

Definition trim (s : jsstring) : jsstring := trimEnd (trimStart s).

(** ToBoolean on a string, and on a possibly undefined string. *)
Definition truthy (s : jsstring) : bool :=
  match s with [] => false | _ :: _ => true end.

Definition truthy_opt (s : option jsstring) : bool :=
  match s with None => false | Some s => truthy s end.

(** [s.startsWith(p)] at position 0. *)
Fixpoint startsWith (p s : jsstring) : bool :=
  match p, s with
  | [], _ => true
  | _ :: _, [] => false
  | a :: p', b :: s' => (a =? b)%N && startsWith p' s'
  end.

(** StringIndexOf(s, pat, 0): the least position at which [pat] occurs
    in [s]; [None] is the specification's not-found. *)
Fixpoint indexOf (s pat : jsstring) : option nat :=
  if startsWith pat s then Some 0
  else match s with
       | [] => None
       | _ :: s' => S <$> indexOf s' pat
       end.

Definition dollar : N := 36.

(** GetSubstitution (ECMA-262 22.1.3.19.1) for a string pattern: there
    are no captures and no named groups, so of the dollar forms only
    [$$], [$&], [$`] and [$'] are substituted; [$n], [$<] and a lone
    dollar stand for themselves. *)
Fixpoint getSubstitution (matched preceding following template : jsstring)
  : jsstring :=
  match template with
  | [] => []
  | c :: rest =>
      if (c =? dollar)%N then
        match rest with
        | [] => [c]
        | d :: rest' =>
            if (d =? 36)%N then dollar :: getSubstitution matched preceding following rest'
            else if (d =? 38)%N then matched ++ getSubstitution matched preceding following rest'
            else if (d =? 96)%N then preceding ++ getSubstitution matched preceding following rest'
            else if (d =? 39)%N then following ++ getSubstitution matched preceding following rest'
            else c :: getSubstitution matched preceding following rest
        end
      else c :: getSubstitution matched preceding following rest
  end.

(** [s.replace(pat, replacement)] with both arguments strings: only the
    first occurrence of [pat] is replaced. *)
Definition replace (s pat replacement : jsstring) : jsstring :=
  match indexOf s pat with
  | None => s
  | Some pos =>
      let preceding := take pos s in
      let following := drop (pos + length pat) s in
      preceding ++ getSubstitution pat preceding following replacement ++ following
  end.

(** [s.split(sep)] for a separator of one code unit: never empty. *)
Fixpoint split (sep : N) (s : jsstring) : list jsstring :=
  match s with
  | [] => [[]]
  | c :: s' =>
      if (c =? sep)%N then [] :: split sep s'
      else match split sep s' with
           | [] => [[c]]
           | seg :: segs => (c :: seg) :: segs
           end
  end.

(** [a.pop()] as an expression: the last element, undefined on []. *)
Definition pop {A} (a : list A) : option A := last a.

(** [a.slice(start, end)] with the relative-index rules of
    Array.prototype.slice: a negative index counts from the end. *)
Definition relIndex (len : nat) (i : Z) : nat :=
  if (i <? 0)%Z then Z.to_nat (Z.max (Z.of_nat len + i) 0)
  else Z.to_nat (Z.min i (Z.of_nat len)).

Definition slice {A} (a : list A) (start : Z) (end_ : option Z) : list A :=
  let k := relIndex (length a) start in
  let final := match end_ with
               | None => length a
               | Some e => relIndex (length a) e
               end in
  take (final - k) (drop k a).

(** [a.findIndex(p)]: the least index whose element satisfies [p], -1 when
    there is none. *)
Definition findIndex {A} (p : A → bool) (a : list A) : Z :=
  match list_find (λ x, p x = true) a with
  | Some (i, _) => Z.of_nat i
  | None => (-1)%Z
  end.

End JS.

Import JS.

(** ** Values that may be missing, and exceptions *)

(** A value that may be [undefined] or [null]: a React state cell
    declared [useState<T | null>()], an attribute of an editor node. *)
Inductive Nullable (A : Type) :=
  | undefined
  | null
  | value (a : A).
Arguments undefined {A}.
Arguments null {A}.
Arguments value {A} a.

Definition ofOptional {A} (o : option A) : Nullable A :=
  match o with None => undefined | Some a => value a end.

#[global] Instance Nullable_eq_dec {A} `{EqDecision A} : EqDecision (Nullable A).
Proof. solve_decision. Defined.

(** ToString of a value that is a string, [null] or [undefined], as
    [String.prototype.replace] applies it to its search value. *)
Definition searchString (v : Nullable jsstring) : jsstring :=
  match v with
  | value s => s
  | null => lit "null"
  | undefined => lit "undefined"
  end.

(** The exceptions that the modelled code can raise, and the outcome of
    a computation that either returns or throws. Nothing in chat.tsx
    catches them: a handler that throws ends there, and what it wrote
    before stays written. *)
Inductive Error := TypeError.

Inductive Outcome (A : Type) :=
  | returned (a : A)
  | threw (e : Error).
Arguments returned {A} a.
Arguments threw {A} e.

#[global] Instance Outcome_ret : MRet Outcome := λ A a, returned a.
#[global] Instance Outcome_bind : MBind Outcome :=
  λ A B f m, match m with returned a => f a | threw e => threw e end.

(** ** Data exchanged with the extension host *)

(** Modelled from the spec: the [role] of a Message (section 3); the
    constant [USER] of common/constants is the user role. *)
Inductive Role := system | user | assistant | function.

Definition USER : Role := user.

(** Modelled from the spec: the Message of section 3, declared as
    [ChatCompletionMessage] in common/types, with the fields this
    component reads or writes; [id] is optional. *)
Record ChatCompletionMessage := mkMessage {
  role : Role;
  content : jsstring;
  id : option jsstring
}.

(** A collected mention. [path] is declared a string; [getMentions]
    stores the [id] attribute of the node there as it finds it. *)
Record MentionType := mkMention {
  name : jsstring;
  path : Nullable jsstring
}.

(** The conversation handed out by [useConversationHistory]: chat.tsx
    reads its [id], [title] and [messages], and saves a copy with the
    messages replaced. *)
Record Conversation := mkConversation {
  conv_id : option jsstring;
  conv_title : option jsstring;
  conv_messages : list ChatCompletionMessage
}.

(** The event names of [EVENT_NAME] that chat.tsx mentions. *)
Inductive EVENT_NAME :=
  | twinnyAddMessage
  | twinnyOnCompletion
  | twinnyOnLoading
  | twinnyNewConversation
  | twinnyStopGeneration
  | twinnyChatMessage
  | twinnySetWorkspaceContext
  | twinnyHideBackButton.

(** A boundary event, from the extension host to the webview:
    [{ type, data }], the data of the events handled here being a
    message when present. *)
Record ServerMessage := mkServerMessage {
  type : EVENT_NAME;
  data : option ChatCompletionMessage
}.

(** A request from the webview to the extension host:
    [{ type, data, meta }] as the object literals of chat.tsx build it. *)
Record ClientMessage := mkClientMessage {
  cm_type : EVENT_NAME;
  cm_data : option (list ChatCompletionMessage);
  cm_meta : option (list MentionType)
}.

#[global] Instance Role_eq_dec : EqDecision Role.
Proof. solve_decision. Defined.
#[global] Instance EVENT_NAME_eq_dec : EqDecision EVENT_NAME.
Proof. solve_decision. Defined.
#[global] Instance ChatCompletionMessage_eq_dec : EqDecision ChatCompletionMessage.
Proof. solve_decision. Defined.
#[global] Instance MentionType_eq_dec : EqDecision MentionType.
Proof. solve_decision. Defined.

(** ** The editor

    The tiptap editor is reached through [editorRef]; the component
    calls [getText()], [getJSON()] and [commands.clearContent()]. *)

(** The attributes of a mention node. [label] may be absent ([None]
    stands for null and undefined, which the code does not tell apart);
    [id] is the path of the mentioned file, null by tiptap's default and
    undefined when the attribute is missing. *)
Record MentionAttrs := mkAttrs {
  label : option jsstring;
  attr_id : Nullable jsstring
}.

#[local] Unset Elimination Schemes.
Inductive JSONContent := mkNode {
  node_type : jsstring;
  attrs : option MentionAttrs;
  node_content : option (list JSONContent)
}.
#[local] Set Elimination Schemes.

Record Editor := mkEditor {
  getText : jsstring;
  getJSON : JSONContent
}.

(** The document tiptap is left with by [clearContent()]: one empty
    paragraph, whose text is empty. *)
Definition clearContent (_ : Editor) : Editor :=
  mkEditor [] (mkNode (lit "doc") None
                 (Some [mkNode (lit "paragraph") None None])).

(** ** Component state *)

Record Chat := mkChat {
  generatingRef : bool;
  stopRef : bool;
  disableAutoScrollRef : bool;
  editorRef : option Editor;
  isLoading : bool;
  messages : option (list ChatCompletionMessage);
  completion : Nullable ChatCompletionMessage
}.

(** What a timer does when it fires. *)
Inductive TimerCallback :=
  | focusEditorAndClearStop
  | clearStop
  | focusChat.

(** Calls to the collaborators of the component, in program order. *)
Inductive Call :=
  | postMessage (m : ClientMessage)
  | saveLastConversation (c : Conversation)
  | setActiveConversation (c : option Conversation)
  | setTimeout (cb : TimerCallback) (ms : nat)
  | scrollToBottom
  | focus_editor.

Record World := mkWorld {
  chat : Chat;
  calls : list Call
}.

(** ** Handlers as state transformers

    A handler runs to completion on the event loop: it reads and writes
    the component state and issues calls. [Act A] is the state monad
    over [World]; React's [setState(updater)] is modelled by running the
    updater once, on the current value of the cell, at the point of the
    call. React may run it later in the same turn, so the statements
    below do not rely on the order between calls made inside an updater
    and calls made by the handler itself. *)

Definition Act (A : Type) : Type := World → A * World.

#[global] Instance Act_ret : MRet Act := λ A a w, (a, w).
#[global] Instance Act_bind : MBind Act :=
  λ A B f m w, let '(a, w') := m w in f a w'.

Definition gets {A} (f : Chat → A) : Act A := λ w, (f (chat w), w).
Definition modify (f : Chat → Chat) : Act () :=
  λ w, (tt, mkWorld (f (chat w)) (calls w)).
Definition call (c : Call) : Act () :=
  λ w, (tt, mkWorld (chat w) (calls w ++ [c])).
Definition when (b : bool) (m : Act ()) : Act () :=
  if b then m else mret tt.

(** The final world of a handler. *)
Definition exec {A} (m : Act A) (w : World) : World := (m w).2.

(** Assignments to the refs and state cells. *)
Definition set_generatingRef (b : bool) : Act () :=
  modify (λ c, mkChat b (stopRef c) (disableAutoScrollRef c) (editorRef c)
                 (isLoading c) (messages c) (completion c)).
Definition set_stopRef (b : bool) : Act () :=
  modify (λ c, mkChat (generatingRef c) b (disableAutoScrollRef c) (editorRef c)
                 (isLoading c) (messages c) (completion c)).
Definition set_editorRef (e : option Editor) : Act () :=
  modify (λ c, mkChat (generatingRef c) (stopRef c) (disableAutoScrollRef c) e
                 (isLoading c) (messages c) (completion c)).
Definition setIsLoading (b : bool) : Act () :=
  modify (λ c, mkChat (generatingRef c) (stopRef c) (disableAutoScrollRef c)
                 (editorRef c) b (messages c) (completion c)).
Definition setCompletion (v : Nullable ChatCompletionMessage) : Act () :=
  modify (λ c, mkChat (generatingRef c) (stopRef c) (disableAutoScrollRef c)
                 (editorRef c) (isLoading c) (messages c) v).
Definition setMessages
    (updater : option (list ChatCompletionMessage) →
               Act (option (list ChatCompletionMessage))) : Act () :=
  prev ← gets messages;
  next ← updater prev;
  modify (λ c, mkChat (generatingRef c) (stopRef c) (disableAutoScrollRef c)
                 (editorRef c) (isLoading c) next (completion c)).

(** [if (!disableAutoScrollRef.current) scrollToBottom()] *)
Definition autoScroll : Act () :=
  disabled ← gets disableAutoScrollRef;
  when (negb disabled) (call scrollToBottom).

(** [editorRef.current?.commands.focus()] *)
Definition focusEditor : Act () :=
  e ← gets editorRef;
  when (bool_decide (is_Some e)) (call focus_editor).

(** [a[i] = x] on an array without holes. Writing at [length a] appends;
    writing beyond it would leave holes, which a message list cannot
    hold: that case is given the same result as writing at [length a],
    and [handleAddMessage] never reaches it (lemma [existingIndex_le]). *)
Definition arraySet {A} (a : list A) (i : nat) (x : A) : list A :=
  if decide (i < length a) then <[i:=x]> a else a ++ [x].

(** [existingIndex || 0] *)
Definition orZero (i : option Z) : Z := default 0%Z i.

Section Handlers.

(** The [conversation] returned by [useConversationHistory] for the
    render whose closures are installed; absent before one is active. *)
Variable conversation : option Conversation.

(** [{ ...conversation, messages: ms }] *)
Definition withMessages (ms : list ChatCompletionMessage) : Conversation :=
  mkConversation (conversation ≫= conv_id) (conversation ≫= conv_title) ms.

Definition handleAddMessage (message : ServerMessage) : Act () :=
  match data message with
  | None =>
      setCompletion null;;
      setIsLoading false;;
      set_generatingRef false
  | Some d =>
      setMessages (λ prev,
        let append :=
          let messages := default [] prev ++ [d] in
          call (saveLastConversation (withMessages messages));;
          mret (Some messages) in
        if truthy_opt (id d) then
          let existingIndex :=
            findIndex (λ m, bool_decide (id m = id d)) <$> prev in
          if bool_decide (existingIndex ≠ Some (-1)%Z) then
            let updatedMessages :=
              arraySet (default [] prev) (Z.to_nat (orZero existingIndex)) d in
            call (saveLastConversation (withMessages updatedMessages));;
            mret (Some updatedMessages)
          else append
        else append);;
      call (setTimeout focusEditorAndClearStop 200);;
      setCompletion null;;
      setIsLoading false
  end.

Definition handleCompletionMessage (message : ServerMessage) : Act () :=
  setCompletion (ofOptional (data message));;
  autoScroll.

Definition handleLoadingMessage : Act () :=
  setIsLoading true;;
  autoScroll.

(** [chatRef] is attached to no element, so [chatRef.current?.focus()]
    finds it null and does nothing. *)
Definition messageEventHandler (message : ServerMessage) : Act () :=
  match type message with
  | twinnyAddMessage => handleAddMessage message
  | twinnyOnCompletion => handleCompletionMessage message
  | twinnyOnLoading => handleLoadingMessage
  | twinnyNewConversation =>
      setMessages (λ _, mret (Some []));;
      setCompletion null;;
      call (setActiveConversation None);;
      set_generatingRef false;;
      setIsLoading false;;
      call (setTimeout clearStop 1000)
  | twinnyStopGeneration =>
      setIsLoading false;;
      setCompletion null;;
      set_stopRef false;;
      set_generatingRef false;;
      call (setTimeout focusChat 200)
  | _ => mret tt
  end.

(** The body of each timer callback. *)
Definition runTimer (cb : TimerCallback) : Act () :=
  match cb with
  | focusEditorAndClearStop => focusEditor;; set_stopRef false
  | clearStop => set_stopRef false
  | focusChat => mret tt
  end.

Definition handleStopGeneration : Act () :=
  call (postMessage (mkClientMessage twinnyStopGeneration None None)).

Definition handleDeleteMessage (index : Z) : Act () :=
  setMessages (λ prev,
    match prev with
    | None => mret prev
    | Some p =>
        if bool_decide (length p = 0) then mret prev
        else if bool_decide (length p = 2) then mret prev
        else
          let updatedMessages :=
            slice p 0 (Some index) ++ slice p (index + 2) None in
          call (saveLastConversation (withMessages updatedMessages));;
          mret (Some updatedMessages)
    end).

(** [a || b] on possibly undefined strings. *)
Definition orElse (a b : option jsstring) : option jsstring :=
  if truthy_opt a then a else b.

Definition slash : N := 47.
Definition at_sign : N := 64.

(** [attrs.id.split("/").pop()]: a TypeError when the id is null or
    undefined. *)
Definition lastSegment (id : Nullable jsstring) : Outcome (option jsstring) :=
  match id with
  | value s => returned (pop (split slash s))
  | null | undefined => threw TypeError
  end.

(** The mention pushed for one inner node:
    [{ name: attrs.label || attrs.id.split("/").pop() || "", path: attrs.id }].
    The id is only split when the label is falsy. *)
Definition mentionOf (a : MentionAttrs) : Outcome MentionType :=
  name ← (if truthy_opt (label a) then returned (default [] (label a))
          else seg ← lastSegment (attr_id a);
               returned (default [] (orElse seg (Some []))));
  returned (mkMention name (attr_id a)).

(** The inner [forEach]: mention nodes that carry attributes, in order;
    an exception ends the iteration. *)
Fixpoint innerMentions (inner : list JSONContent)
  : Outcome (list MentionType) :=
  match inner with
  | [] => returned []
  | innerNode :: rest =>
      match (if bool_decide (node_type innerNode = lit "mention")
             then attrs innerNode else None) with
      | Some a =>
          m ← mentionOf a;
          ms ← innerMentions rest;
          returned (m :: ms)
      | None => innerMentions rest
      end
  end.

(** The body of the outer [forEach]: paragraphs whose content is an
    array. *)
Definition nodeMentions (node : JSONContent) : Outcome (list MentionType) :=
  if bool_decide (node_type node = lit "paragraph") then
    match node_content node with
    | Some inner => innerMentions inner
    | None => returned []
    end
  else returned [].

(** The outer [forEach] over the top-level nodes of the document. *)
Fixpoint docMentions (nodes : list JSONContent)
  : Outcome (list MentionType) :=
  match nodes with
  | [] => returned []
  | node :: rest =>
      ms ← nodeMentions node;
      more ← docMentions rest;
      returned (ms ++ more)
  end.

Definition getMentions : Act (Outcome (list MentionType)) :=
  e ← gets editorRef;
  mret (match e ≫= (λ e, node_content (getJSON e)) with
        | Some nodes => docMentions nodes
        | None => returned []
        end).

(** [result.replace(mention.path, `@${mention.name}`)] folded over the
    mentions; [replace] converts its search value to a string. *)
Definition replaceMentionsInText
    (text : jsstring) (mentions : list MentionType) : jsstring :=
  foldl (λ result mention,
           replace result (searchString (path mention))
                   (at_sign :: name mention))
        text mentions.

Definition clearEditor : Act () :=
  e ← gets editorRef;
  set_editorRef (clearContent <$> e).

(** [editorRef.current?.getText() || ""], the text the component takes
    the editor to hold (as passed to [useAutosizeTextArea]). *)
Definition editorText (c : Chat) : jsstring :=
  default [] (orElse (getText <$> editorRef c) (Some [])).

(** [getMentions()] is called after the generating flag is set and
    before anything else is written: when it throws, the handler ends
    with only that flag changed. *)
Definition handleSubmitForm : Act (Outcome ()) :=
  input ← gets (λ c, trim <$> (getText <$> editorRef c));
  generating ← gets generatingRef;
  if negb (truthy_opt input) || generating then mret (returned tt)
  else
    let input := default [] input in
    set_generatingRef true;;
    collected ← getMentions;
    match collected with
    | threw e => mret (threw e)
    | returned mentions =>
        setIsLoading true;;
        clearEditor;;
        setMessages (λ prevMessages,
          let updatedMessages :=
            default [] prevMessages ++
            [mkMessage USER (replaceMentionsInText input mentions) None] in
          let clientMessage :=
            mkClientMessage twinnyChatMessage (Some updatedMessages)
                            (Some mentions) in
          call (saveLastConversation (withMessages updatedMessages));;
          call (postMessage clientMessage);;
          mret (Some updatedMessages));;
        autoScroll;;
        mret (returned tt)
    end.

End Handlers.

(** ** Vocabulary of the statements *)

(** The calls a handler adds to the ones already made. *)
Definition issued {A} (m : Act A) (w : World) : list Call :=
  drop (length (calls w)) (calls (exec m w)).

Definition isSave (c : Call) : bool :=
  match c with saveLastConversation _ => true | _ => false end.

Definition isPost (c : Call) : bool :=
  match c with postMessage _ => true | _ => false end.



(** A submit attempt is refused when the editor text trims to the empty
    string or a generation is in progress. *)
Definition submitBlocked (c : Chat) : bool :=
  bool_decide (trim (editorText c) = []) || generatingRef c.

(** The list [handleAddMessage] leaves behind for an event with data
    [d], as a function of the previous list. *)
Definition upsert (prev : option (list ChatCompletionMessage))
    (d : ChatCompletionMessage) : list ChatCompletionMessage :=
  let a := default [] prev in
  if truthy_opt (id d) then
    match list_find (λ m, id m = id d) a with
    | Some (i, _) => <[i:=d]> a
    | None => a ++ [d]
    end
  else a ++ [d].

(** [pat] occurs in [s] at position [n]. *)
Definition occursAt (pat s : jsstring) (n : nat) : Prop :=
  ∃ pre post, s = pre ++ pat ++ post ∧ length pre = n.

(** [n] is the position of the first occurrence of [pat] in [s]. *)
Definition firstOccurrence (pat s : jsstring) (n : nat) : Prop :=
  occursAt pat s n ∧ ∀ k, k < n → ¬ occursAt pat s k.

(** The webview handling a sequence of boundary events in order. *)
Definition deliver (conversation : option Conversation)
    (events : list ServerMessage) (w : World) : World :=
  foldl (λ w ev, exec (messageEventHandler conversation ev) w) w events.

(** ** The extension host's side of a generation

    The class [Chat] of the extension host streams the answer of the
    model to the webview. [llmStream] is an async function: between two
    items of the model's stream other code runs, [abort()] in
    particular. It is modelled by the steps it takes: entering, and
    then one step per item that the stream delivers. The webview is
    attached ([this._webView] is defined) and posting to it succeeds. *)

Module Host.

(** The fields of [Chat] that streaming reads and writes.
    [controller] is [this._controller], absent before the first request
    and otherwise holding [signal.aborted]; [streaming] says that a
    call of [llmStream] is inside its [for await] loop. *)
Record ChatHost := mkHost {
  host_completion : jsstring;
  isCancelled : bool;
  hasTokenJs : bool;
  controller : option bool;
  streaming : bool
}.

(** What awaiting the model's stream yields: a chunk, with the
    [choices[0]?.delta?.content] it carries if any, the end of the
    stream, or a rejection with its error message. *)
Inductive StreamItem :=
  | part (content : option jsstring)
  | finished
  | failed (message : jsstring).

(** The events [Chat] posts to the webview while streaming; their data
    has the role [ASSISTANT] and no id. *)
Definition onCompletionEvent (text : jsstring) : ServerMessage :=
  mkServerMessage twinnyOnCompletion (Some (mkMessage assistant text None)).
Definition addMessageEvent (text : jsstring) : ServerMessage :=
  mkServerMessage twinnyAddMessage (Some (mkMessage assistant text None)).
Definition stopGenerationEvent : ServerMessage :=
  mkServerMessage twinnyStopGeneration None.

(** [this._completion.trimStart() || " "] *)
Definition shownProgress (completion : jsstring) : jsstring :=
  if truthy (trimStart completion) then trimStart completion else lit " ".

(** [onPart]: a chunk without text posts nothing. *)
Definition onPart (h : ChatHost) (content : option jsstring)
  : ChatHost * list ServerMessage :=
  if truthy_opt content then
    let completion := host_completion h ++ default [] content in
    (mkHost completion (isCancelled h) (hasTokenJs h) (controller h)
            (streaming h),
     [onCompletionEvent (shownProgress completion)])
  else (h, []).

(** [abort()]: posts nothing to the webview. (Its other effects are on
    the status bar and on a VS Code context key.) *)
Definition abort (h : ChatHost) : ChatHost :=
  mkHost (host_completion h) true (hasTokenJs h)
         ((λ _, true) <$> controller h) (streaming h).

(** [llmStream] up to its loop: a fresh controller, an empty
    completion, and an immediate return without a TokenJS client or
    when the request was cancelled. *)
Definition llmStream_enter (h : ChatHost) : ChatHost :=
  mkHost [] (isCancelled h) (hasTokenJs h) (Some false)
         (hasTokenJs h && negb (isCancelled h)).

(** [llmStream] after its loop: the final message, then the stop event. *)
Definition llmStream_leave (h : ChatHost) : ChatHost * list ServerMessage :=
  (mkHost [] (isCancelled h) (hasTokenJs h) (controller h) false,
   [addMessageEvent (trim (host_completion h)); stopGenerationEvent]).

(** One turn of [llmStream] on what the stream delivers. A chunk is
    dropped, and the loop left, when the controller was aborted in the
    meantime; a rejection is caught, the controller aborted, and the
    stop event posted before the message with the error text. *)
Definition llmStream_step (h : ChatHost) (item : StreamItem)
  : ChatHost * list ServerMessage :=
  if streaming h then
    match item with
    | part content =>
        if default false (controller h) then llmStream_leave h
        else onPart h content
    | finished => llmStream_leave h
    | failed message =>
        (mkHost (host_completion h) (isCancelled h) (hasTokenJs h)
                ((λ _, true) <$> controller h) false,
         [stopGenerationEvent; addMessageEvent message])
    end
  else (h, []).

(** [llmStream] over the items that the stream delivers, in order. *)
Fixpoint llmStream_run (h : ChatHost) (items : list StreamItem)
  : ChatHost * list ServerMessage :=
  match items with
  | [] => (h, [])
  | item :: items' =>
      let '(h1, ev1) := llmStream_step h item in
      let '(h2, ev2) := llmStream_run h1 items' in
      (h2, ev1 ++ ev2)
  end.

End Host.

(** ** Concrete inputs *)

(** Messages and worlds on which the statements about AddMessage are
    evaluated. *)
Definition msg_old_empty_id : ChatCompletionMessage :=
  mkMessage assistant (lit "old") (Some []).

Definition msg_new_empty_id : ChatCompletionMessage :=
  mkMessage assistant (lit "new") (Some []).

Definition msg_question : ChatCompletionMessage :=
  mkMessage user (lit "hi") None.

Definition msg_partial : ChatCompletionMessage :=
  mkMessage assistant (lit "he") (Some (lit "a1")).

Definition msg_final : ChatCompletionMessage :=
  mkMessage assistant (lit "hello") (Some (lit "a1")).

Definition world_with (ms : option (list ChatCompletionMessage)) : World :=
  mkWorld (mkChat true false false None true ms undefined) [].

(** The editor on which the statements about mentions are evaluated:
    the user typed [see src/a.ts or ] and then picked the file
    [src/a.ts], labelled [a.ts], from the suggestions; tiptap renders
    the mention node by its id. *)
Definition attrs_a_ts : MentionAttrs :=
  mkAttrs (Some (lit "a.ts")) (value (lit "src/a.ts")).

Definition mention_a_ts : MentionType :=
  mkMention (lit "a.ts") (value (lit "src/a.ts")).

Definition editor_typed_and_mentioned : Editor :=
  mkEditor (lit "see src/a.ts or src/a.ts")
    (mkNode (lit "doc") None
       (Some [mkNode (lit "paragraph") None
                (Some [mkNode (lit "text") None None;
                       mkNode (lit "mention") (Some attrs_a_ts) None])])).

Definition world_editing (e : Editor) : World :=
  mkWorld (mkChat false false false (Some e) false None undefined) [].

(** ** The other handlers of the component *)

(** [handleRegenerateMessage(index)]: the flags are set before the list
    is looked at, and the request is posted from inside the updater. *)
Definition handleRegenerateMessage (index : Z) : Act () :=
  set_generatingRef true;;
  setIsLoading true;;
  setMessages (λ prev,
    match prev with
    | None => mret prev
    | Some p =>
        let updatedMessages := slice p 0 (Some index) in
        call (postMessage
                (mkClientMessage twinnyChatMessage (Some updatedMessages) None));;
        mret (Some updatedMessages)
    end).

(** [handleNewConversation]: only asks the extension host. *)
Definition handleNewConversation : Act () :=
  call (postMessage (mkClientMessage twinnyNewConversation None None)).

(** The effect keyed on [conversation?.id]:
    [if (conversation?.messages?.length) return setMessages(conversation.messages)]. *)
Definition conversationEffect (conversation : option Conversation) : Act () :=
  match conversation with
  | Some c =>
      if bool_decide (length (conv_messages c) ≠ 0)
      then setMessages (λ _, mret (Some (conv_messages c)))
      else mret tt
  | None => mret tt
  end.

(** What can happen to the component between two renders: an event from
    the extension host, a click on one of its controls, a timer firing,
    the conversation changing, or the user editing the text (which
    replaces what the editor holds). An exception thrown by a handler
    is not caught by the component: the action ends there. *)
Inductive Action :=
  | receive (conversation : option Conversation) (ev : ServerMessage)
  | submit (conversation : option Conversation)
  | regenerate (index : Z)
  | delete (conversation : option Conversation) (index : Z)
  | stopClick
  | newConversationClick
  | fire (cb : TimerCallback)
  | conversationChanged (conversation : option Conversation)
  | edit (e : option Editor).

Definition perform (a : Action) : Act () :=
  match a with
  | receive conversation ev => messageEventHandler conversation ev
  | submit conversation => handleSubmitForm conversation;; mret tt
  | regenerate index => handleRegenerateMessage index
  | delete conversation index => handleDeleteMessage conversation index
  | stopClick => handleStopGeneration
  | newConversationClick => handleNewConversation
  | fire cb => runTimer cb
  | conversationChanged conversation => conversationEffect conversation
  | edit e => set_editorRef e
  end.

Definition performAll (actions : list Action) (w : World) : World :=
  foldl (λ w a, exec (perform a) w) w actions.

(** ** The provider and embedding panels

    [handleToggleProviderSelection] and [handleToggleEmbeddingOptions]
    call each other; each reads the value of the two workspace contexts
    that its render closed over and then flips its own context through
    the setter of [useWorkSpaceContext], used as a state setter with an
    updater. *)

Module Panels.

Inductive WORKSPACE_STORAGE_KEY := showProviders | showEmbeddingOptions.

(** The two context cells and the [twinnySetWorkspaceContext] requests
    posted so far, each with its key and its boolean data. *)
Record PanelWorld := mkPanels {
  showProvidersContext : option bool;
  showEmbeddingOptionsContext : option bool;
  posted : list (WORKSPACE_STORAGE_KEY * bool)
}.

(** ToBoolean of a context that may still be undefined. *)
Definition isOpen (c : option bool) : bool := default false c.

(** [!prev] *)
Definition flipped (prev : option bool) : bool := negb (isOpen prev).

Definition flipProviders (w : PanelWorld) : PanelWorld :=
  let next := flipped (showProvidersContext w) in
  mkPanels (Some next) (showEmbeddingOptionsContext w)
           (posted w ++ [(showProviders, next)]).

Definition flipEmbeddingOptions (w : PanelWorld) : PanelWorld :=
  let next := flipped (showEmbeddingOptionsContext w) in
  mkPanels (showProvidersContext w) (Some next)
           (posted w ++ [(showEmbeddingOptions, next)]).

Section Render.

(** The values of the two contexts in the render whose closures run. *)
Variables showProvidersSeen showEmbeddingOptionsSeen : option bool.

(** The two handlers; [fuel] bounds the depth of their mutual calls and
    [None] means that it did not suffice. *)
Fixpoint handleToggleProviderSelection (fuel : nat) (w : PanelWorld)
  : option PanelWorld :=
  match fuel with
  | 0 => None
  | S fuel =>
      w1 ← (if isOpen showEmbeddingOptionsSeen
            then handleToggleEmbeddingOptions fuel w else Some w);
      Some (flipProviders w1)
  end
with handleToggleEmbeddingOptions (fuel : nat) (w : PanelWorld)
  : option PanelWorld :=
  match fuel with
  | 0 => None
  | S fuel =>
      w1 ← (if isOpen showProvidersSeen
            then handleToggleProviderSelection fuel w else Some w);
      Some (flipEmbeddingOptions w1)
  end.

End Render.

End Panels.

(** ** Dollar signs in a replacement

    A dollar sign of a replacement text is taken literally by
    [replace] unless one of [$], [&], a backquote or a quote follows it. *)

Definition isSpecialAfterDollar (d : N) : bool :=
  ((d =? 36) || (d =? 38) || (d =? 96) || (d =? 39))%N.

Fixpoint dollarSafe (template : jsstring) : bool :=
  match template with
  | [] => true
  | c :: rest =>
      (if (c =? dollar)%N
       then match rest with
            | [] => true
            | d :: _ => negb (isSpecialAfterDollar d)
            end
       else true) && dollarSafe rest
  end.

(** An editor whose only mention sits in a bullet list: the paragraph
    holding it is not a top-level node of the document. *)
Definition editor_mention_in_list : Editor :=
  mkEditor (lit "src/a.ts")
    (mkNode (lit "doc") None
       (Some [mkNode (lit "bulletList") None
                (Some [mkNode (lit "listItem") None
                         (Some [mkNode (lit "paragraph") None
                                  (Some [mkNode (lit "mention")
                                           (Some attrs_a_ts) None])])])])).

(** ** Text as the editor renders it

    The text of the editor consists of what the user typed and, for
    each mention node, of the id of the node ([renderText] returns
    [node.attrs.id] for a node without a [name] attribute). *)




(** An editor in which two files were picked from the suggestions, the
    second one without a label, between typed parts that name no path. *)
Definition attrs_b_ts : MentionAttrs :=
  mkAttrs None (value (lit "lib/b.ts")).


Definition editor_two_mentions : Editor :=
  mkEditor (lit " see src/a.ts and lib/b.ts now ")
    (mkNode (lit "doc") None
       (Some [mkNode (lit "paragraph") None
                (Some [mkNode (lit "text") None None;
                       mkNode (lit "mention") (Some attrs_a_ts) None;
                       mkNode (lit "text") None None;
                       mkNode (lit "mention") (Some attrs_b_ts) None;
                       mkNode (lit "text") None None])])).

(** An action that does not end a generation: anything but a
    StopGeneration or NewConversation event and an AddMessage event
    without data. *)
Definition keepsGenerating (a : Action) : Prop :=
  match a with
  | receive _ ev =>
      type ev ≠ twinnyStopGeneration ∧
      type ev ≠ twinnyNewConversation ∧
      (type ev = twinnyAddMessage → is_Some (data ev))
  | _ => True
  end.

(** An editor holding a mention node left with tiptap's default
    attributes, no id and no label, after the typed text [see ]. *)
Definition editor_mention_without_id : Editor :=
  mkEditor (lit "see ")
    (mkNode (lit "doc") None
       (Some [mkNode (lit "paragraph") None
                (Some [mkNode (lit "text") None None;
                       mkNode (lit "mention") (Some (mkAttrs None null))
                              None])])).


(** ** Reasoning about handlers *)

Ltac run_handler :=
  unfold issued, exec, messageEventHandler, handleAddMessage,
    handleCompletionMessage, handleLoadingMessage, handleStopGeneration,
    autoScroll, when, setMessages, setCompletion, setIsLoading,
    set_generatingRef, set_stopRef, set_editorRef, modify, gets, call,
    mbind, mret, Act_bind, Act_ret;
  simpl.

(** *** StopGeneration *)

(** C2: a StopGeneration event, whatever it carries and whatever state
    the component is in, leaves the loading flag off, the partial
    completion null, the stop and generating flags reset, and the
    message list (and the editor) as they were; its only call is the
    focus timer. *)
Theorem stopGeneration_resets conversation d w :
  let w' := exec (messageEventHandler conversation
                    (mkServerMessage twinnyStopGeneration d)) w in
  isLoading (chat w') = false ∧
  completion (chat w') = null ∧
  stopRef (chat w') = false ∧
  generatingRef (chat w') = false ∧
  messages (chat w') = messages (chat w) ∧
  editorRef (chat w') = editorRef (chat w) ∧
  calls w' = calls w ++ [setTimeout focusChat 200].
Proof. by run_handler. Qed.

(** *** NewConversation *)

(** C4: a NewConversation event empties the message list, nulls the
    partial completion and clears the active conversation, in every
    state; it issues no [saveLastConversation]. *)
Theorem newConversation_discards conversation d w :
  let h := messageEventHandler conversation
             (mkServerMessage twinnyNewConversation d) in
  messages (chat (exec h w)) = Some [] ∧
  completion (chat (exec h w)) = null ∧
  generatingRef (chat (exec h w)) = false ∧
  isLoading (chat (exec h w)) = false ∧
  issued h w = [setActiveConversation None; setTimeout clearStop 1000] ∧
  filter isSave (issued h w) = [].
Proof.
  run_handler. rewrite <- !app_assoc, drop_app_length. done.
Qed.

(** *** OnCompletion *)

Lemma handleCompletionMessage_chat message w :
  chat (exec (handleCompletionMessage message) w) =
  mkChat (generatingRef (chat w)) (stopRef (chat w))
         (disableAutoScrollRef (chat w)) (editorRef (chat w))
         (isLoading (chat w)) (messages (chat w))
         (ofOptional (data message)).
Proof. run_handler. by destruct (disableAutoScrollRef (chat w)). Qed.

Lemma handleCompletionMessage_issued message w :
  issued (handleCompletionMessage message) w =
  if disableAutoScrollRef (chat w) then [] else [scrollToBottom].
Proof.
  run_handler. destruct (disableAutoScrollRef (chat w)); simpl.
  - by rewrite drop_all.
  - by rewrite drop_app_length.
Qed.

(** C5: an OnCompletion event overwrites the partial completion with
    the message it carries, so that handling the same event twice
    leaves the component in the state reached by handling it once; the
    message list is untouched and nothing is saved. *)
Theorem onCompletion_replaces conversation d w :
  let h := messageEventHandler conversation
             (mkServerMessage twinnyOnCompletion d) in
  completion (chat (exec h w)) = ofOptional d ∧
  chat (exec h (exec h w)) = chat (exec h w) ∧
  messages (chat (exec h w)) = messages (chat w) ∧
  filter isSave (issued h w) = [] ∧
  filter isSave (issued h (exec h w)) = [].
Proof.
  cbv zeta. change (messageEventHandler conversation
                      (mkServerMessage twinnyOnCompletion d))
    with (handleCompletionMessage (mkServerMessage twinnyOnCompletion d)).
  rewrite !handleCompletionMessage_issued.
  rewrite !handleCompletionMessage_chat. simpl.
  split_and!; try done.
  - by destruct (disableAutoScrollRef (chat w)).
  - by destruct (disableAutoScrollRef (chat w)).
Qed.

(** *** AddMessage without data *)

(** C9: an AddMessage event with no data nulls the partial completion
    and turns the loading and generating flags off; the message list,
    every other part of the state and the calls made so far (hence what
    was saved) stay as they were. *)
Theorem addMessage_without_data conversation w :
  exec (messageEventHandler conversation
          (mkServerMessage twinnyAddMessage None)) w =
  mkWorld
    (mkChat false (stopRef (chat w)) (disableAutoScrollRef (chat w))
            (editorRef (chat w)) false (messages (chat w)) null)
    (calls w).
Proof. by run_handler. Qed.

(** *** Submitting the form *)

Lemma truthy_nil (s : jsstring) : truthy s = negb (bool_decide (s = [])).
Proof. by destruct s. Qed.

Lemma editorText_Some c e : editorRef c = Some e → editorText c = getText e.
Proof.
  unfold editorText. intros ->. simpl. unfold orElse. simpl.
  by destruct (getText e).
Qed.

Lemma editorText_None c : editorRef c = None → editorText c = [].
Proof. unfold editorText. by intros ->. Qed.

(** The guard of [handleSubmitForm], [!input || generatingRef.current],
    is [submitBlocked]. *)
Lemma submit_guard c :
  negb (truthy_opt (trim <$> (getText <$> editorRef c))) || generatingRef c
  = submitBlocked c.
Proof.
  unfold submitBlocked. f_equal.
  destruct (editorRef c) as [e|] eqn:He; simpl.
  - rewrite (editorText_Some c e He), truthy_nil. by rewrite negb_involutive.
  - by rewrite (editorText_None c He).
Qed.

Ltac run_submit :=
  unfold handleSubmitForm, getMentions, clearEditor; run_handler.

(** The world a submit attempt that is not refused leaves behind when
    the mentions can be collected. *)
Lemma handleSubmitForm_exec conversation w e mentions :
  editorRef (chat w) = Some e →
  submitBlocked (chat w) = false →
  (getMentions w).1 = returned mentions →
  let updated :=
    default [] (messages (chat w)) ++
    [mkMessage USER (replaceMentionsInText (trim (getText e)) mentions) None] in
  exec (handleSubmitForm conversation) w =
  mkWorld
    (mkChat true (stopRef (chat w)) (disableAutoScrollRef (chat w))
            (Some (clearContent e)) true (Some updated) (completion (chat w)))
    (calls w ++
       [saveLastConversation (withMessages conversation updated);
        postMessage (mkClientMessage twinnyChatMessage (Some updated)
                       (Some mentions))] ++
       if disableAutoScrollRef (chat w) then [] else [scrollToBottom]).
Proof.
  intros He Hguard Hmentions. rewrite <- submit_guard in Hguard.
  destruct w as [[g s d eo l ms cp] cs]. simpl in *. subst eo.
  unfold getMentions, gets, mbind, mret, Act_bind, Act_ret in Hmentions.
  simpl in Hmentions.
  run_submit. simpl in Hguard. rewrite Hguard. simpl. rewrite Hmentions.
  destruct d; simpl; by rewrite <- ?app_assoc, ?app_nil_r.
Qed.

(** The world it leaves behind when collecting the mentions throws:
    the generating flag is set and nothing else has happened. *)
Lemma handleSubmitForm_exec_threw conversation w err :
  submitBlocked (chat w) = false →
  (getMentions w).1 = threw err →
  handleSubmitForm conversation w =
  (threw err,
   mkWorld
     (mkChat true (stopRef (chat w)) (disableAutoScrollRef (chat w))
             (editorRef (chat w)) (isLoading (chat w)) (messages (chat w))
             (completion (chat w)))
     (calls w)).
Proof.
  intros Hguard Hmentions. rewrite <- submit_guard in Hguard.
  destruct w as [[g s d eo l ms cp] cs]. simpl in *.
  unfold getMentions, gets, mbind, mret, Act_bind, Act_ret in Hmentions.
  simpl in Hmentions.
  run_submit. rewrite Hguard. simpl. by rewrite Hmentions.
Qed.

Lemma handleSubmitForm_blocked conversation w :
  submitBlocked (chat w) = true → exec (handleSubmitForm conversation) w = w.
Proof.
  intros Hguard. rewrite <- submit_guard in Hguard.
  destruct w as [c cs]. simpl in *. run_submit. by rewrite Hguard.
Qed.

Lemma submitBlocked_no_editor c : editorRef c = None → submitBlocked c = true.
Proof. intros He. unfold submitBlocked. by rewrite (editorText_None c He). Qed.

Lemma submitBlocked_generating c : generatingRef c = true → submitBlocked c = true.
Proof. intros Hgen. unfold submitBlocked. rewrite Hgen. apply orb_true_r. Qed.

(** C1, at the input where the code departs from it: the editor holds
    the text [see ] and a mention node without id and label. The
    attempt is not refused (the text does not trim to the empty string
    and no generation is in progress) and the generating flag is set,
    but [getMentions] then throws on [attrs.id.split]: no message is
    appended, nothing is posted or saved, and the flag stays set, so
    every later attempt is refused. *)
Theorem submit_with_mention_without_id :
  let w := world_editing editor_mention_without_id in
  let h := handleSubmitForm None in
  submitBlocked (chat w) = false ∧
  (h w).1 = threw TypeError ∧
  generatingRef (chat (exec h w)) = true ∧
  messages (chat (exec h w)) = messages (chat w) ∧
  issued h w = [] ∧
  ∀ c e, exec (handleSubmitForm c) (exec (set_editorRef e) (exec h w))
         = exec (set_editorRef e) (exec h w).
Proof.
  cbv zeta. split_and!; [reflexivity..|].
  intros c e. by apply handleSubmitForm_blocked, submitBlocked_generating.
Qed.

(** *** Deleting a message pair *)

Lemma relIndex_of_nat len (i : nat) : relIndex len (Z.of_nat i) = min i len.
Proof.
  unfold relIndex. destruct (Z.ltb_spec (Z.of_nat i) 0); lia.
Qed.

(** [a.slice(0, i)] and [a.slice(i + 2)] at a position [i]. *)
Lemma slice_prefix {A} (a : list A) (i : nat) :
  slice a 0 (Some (Z.of_nat i)) = take i a.
Proof.
  unfold slice. change 0%Z with (Z.of_nat 0). rewrite !relIndex_of_nat.
  rewrite Nat.min_0_l, drop_0, Nat.sub_0_r.
  destruct (decide (i ≤ length a)).
  - by rewrite Nat.min_l.
  - rewrite Nat.min_r, !take_ge by lia. done.
Qed.

Lemma slice_suffix {A} (a : list A) (i : nat) :
  slice a (Z.of_nat i + 2) None = drop (i + 2) a.
Proof.
  unfold slice. replace (Z.of_nat i + 2)%Z with (Z.of_nat (i + 2)) by lia.
  rewrite relIndex_of_nat, take_ge by (rewrite length_drop; lia).
  destruct (decide (i + 2 ≤ length a)).
  - by rewrite Nat.min_l.
  - rewrite Nat.min_r, !drop_ge by lia. done.
Qed.

(** Cutting positions [i] and [i + 1] out of a list. *)
Lemma lookup_cut_pair {A} (a : list A) (i j : nat) :
  (take i a ++ drop (i + 2) a) !! j
  = a !! (if decide (j < i) then j else j + 2).
Proof.
  case_decide as Hj.
  - destruct (decide (j < length a)).
    + rewrite lookup_app_l by (rewrite length_take; lia).
      by rewrite lookup_take_lt.
    + rewrite (lookup_ge_None_2 a j) by lia.
      apply lookup_ge_None_2. rewrite length_app, length_take, length_drop. lia.
  - destruct (decide (i ≤ length a)).
    + rewrite lookup_app_r by (rewrite length_take; lia).
      rewrite length_take, lookup_drop. f_equal. lia.
    + rewrite (lookup_ge_None_2 a (j + 2)) by lia.
      apply lookup_ge_None_2. rewrite length_app, length_take, length_drop. lia.
Qed.

Lemma length_cut_pair {A} (a : list A) (i : nat) :
  length (take i a ++ drop (i + 2) a) = length a - min 2 (length a - i).
Proof. rewrite length_app, length_take, length_drop. lia. Qed.

(** C10: on an undefined or empty list, and on a list of exactly two
    messages, [handleDeleteMessage] changes nothing and saves nothing.
    On any other list it removes the messages at positions [index] and
    [index + 1] and no others (only one when [index] is the last
    position), keeps the rest in order, and saves the result. *)
Theorem handleDeleteMessage_removes_pair conversation (index : nat) w :
  let h := handleDeleteMessage conversation (Z.of_nat index) in
  match messages (chat w) with
  | None => exec h w = w
  | Some p =>
      if bool_decide (length p = 0 ∨ length p = 2) then exec h w = w
      else
        ∃ updated,
          messages (chat (exec h w)) = Some updated ∧
          issued h w = [saveLastConversation (withMessages conversation updated)] ∧
          (∀ j, updated !! j = p !! (if decide (j < index) then j else j + 2)) ∧
          length updated = length p - min 2 (length p - index)
  end.
Proof.
  cbv zeta. destruct w as [[g s d e l ms c] cs]. simpl.
  unfold handleDeleteMessage. destruct ms as [p|]; [|by run_handler].
  case_bool_decide as Hlen.
  - run_handler. destruct Hlen as [-> | ->]; simpl; [done|].
    by destruct p as [|? [|? [|? ?]]].
  - run_handler.
    rewrite !bool_decide_eq_false_2 by tauto. simpl.
    rewrite slice_prefix, slice_suffix, drop_app_length.
    eexists. split_and!; [done..| |].
    + apply lookup_cut_pair.
    + apply length_cut_pair.
Qed.

(** *** AddMessage with data *)

(** [findIndex] answers -1 or a position of the array. *)
Lemma findIndex_range {A} (p : A → bool) (a : list A) :
  findIndex p a = (-1)%Z ∨
  (0 ≤ findIndex p a)%Z ∧ Z.to_nat (findIndex p a) < length a.
Proof.
  unfold findIndex.
  destruct (list_find _ a) as [[i x]|] eqn:Hf; [right|by left].
  apply list_find_Some in Hf as (Hi%lookup_lt_Some & _). lia.
Qed.

(** The index [handleAddMessage] assigns at is never beyond the end of
    the array, so [arraySet] is only used where it is exact. *)
Lemma existingIndex_le {A} (p : A → bool) (prev : option (list A)) :
  let existingIndex := findIndex p <$> prev in
  existingIndex ≠ Some (-1)%Z →
  Z.to_nat (orZero existingIndex) ≤ length (default [] prev).
Proof.
  destruct prev as [a|]; simpl; [|lia].
  intros Hne. destruct (findIndex_range p a) as [Heq|[_ Hlt]]; [|lia].
  by rewrite Heq in Hne.
Qed.

Lemma list_find_ext_bool {A} (P : A → Prop) `{∀ x, Decision (P x)} (a : list A) :
  list_find (λ x, bool_decide (P x) = true) a = list_find P a.
Proof.
  induction a as [|x a IH]; [done|]. simpl.
  destruct (decide (P x)) as [HP|HP].
  - rewrite decide_True; [done|]. by apply bool_decide_eq_true.
  - rewrite decide_False; [by rewrite IH|]. by rewrite bool_decide_eq_true.
Qed.

Lemma handleAddMessage_exec conversation ty d w :
  exec (handleAddMessage conversation (mkServerMessage ty (Some d))) w =
  mkWorld
    (mkChat (generatingRef (chat w)) (stopRef (chat w))
            (disableAutoScrollRef (chat w)) (editorRef (chat w)) false
            (Some (upsert (messages (chat w)) d)) null)
    (calls w ++
       [saveLastConversation (withMessages conversation (upsert (messages (chat w)) d));
        setTimeout focusEditorAndClearStop 200]).
Proof.
  destruct w as [[g s da e l ms c] cs]. unfold upsert. run_handler.
  destruct (truthy_opt (id d)) eqn:Hid; simpl;
    [|by rewrite <- app_assoc].
  destruct ms as [a|]; simpl; [|by rewrite <- app_assoc].
  unfold findIndex. rewrite list_find_ext_bool.
  destruct (list_find _ a) as [[i x]|] eqn:Hf; simpl.
  - rewrite bool_decide_eq_true_2 by (intros [=]; lia). simpl.
    unfold orZero, arraySet. simpl. rewrite Nat2Z.id.
    apply list_find_Some in Hf as (Hi%lookup_lt_Some & _).
    rewrite decide_True by done. by rewrite <- app_assoc.
  - by rewrite <- app_assoc.
Qed.

Lemma upsert_found prev d i m :
  truthy_opt (id d) = true →
  default [] prev !! i = Some m →
  id m = id d →
  (∀ j m', default [] prev !! j = Some m' → j < i → id m' ≠ id d) →
  upsert prev d = <[i:=d]> (default [] prev).
Proof.
  intros Hid Hi Hm Hleast. unfold upsert. rewrite Hid.
  assert (list_find (λ m, id m = id d) (default [] prev) = Some (i, m)) as ->;
    [|done].
  apply list_find_Some. eauto.
Qed.

Lemma upsert_fresh prev d :
  truthy_opt (id d) = false ∨ (∀ m, m ∈ default [] prev → id m ≠ id d) →
  upsert prev d = default [] prev ++ [d].
Proof.
  intros Hfresh. unfold upsert. destruct (truthy_opt (id d)); [|done].
  destruct Hfresh as [|Hfresh]; [done|].
  destruct (list_find _ _) as [[i x]|] eqn:Hf; [|done].
  apply list_find_Some in Hf as (Hx%list_elem_of_lookup_2 & Heq & _).
  by destruct (Hfresh x Hx).
Qed.

(** C8, as stated, fails for an event whose data carries the empty
    string as id: a message with that id is in the list, yet the guard
    [if (message.data.id)] sends the event to the append path and the
    list grows from one message to two. *)
Lemma addMessage_empty_id_is_appended :
  let w := world_with (Some [msg_old_empty_id]) in
  let h := handleAddMessage None
             (mkServerMessage twinnyAddMessage (Some msg_new_empty_id)) in
  msg_old_empty_id ∈ [msg_old_empty_id] ∧
  id msg_new_empty_id = id msg_old_empty_id ∧
  is_Some (id msg_new_empty_id) ∧
  messages (chat (exec h w)) = Some [msg_old_empty_id; msg_new_empty_id] ∧
  length [msg_old_empty_id; msg_new_empty_id] ≠ length [msg_old_empty_id].
Proof.
  split_and!; [apply list_elem_of_here|done|by eexists|reflexivity|done].
Qed.

(** C8, amended: for an AddMessage event whose data carries a non-empty
    id, if a message with that id is in the list then the first such
    message is replaced in place and the length is unchanged; if the
    data has no id, an empty id, or an id that no message of the list
    carries (an undefined list counting as empty), the message is
    appended and the length grows by one. In both cases the updated list
    is saved with the conversation, the partial completion becomes null
    and the loading flag is turned off. *)
Theorem handleAddMessage_upsert conversation ty d w :
  let h := handleAddMessage conversation (mkServerMessage ty (Some d)) in
  let prev := default [] (messages (chat w)) in
  ∃ updated,
    messages (chat (exec h w)) = Some updated ∧
    filter isSave (issued h w)
      = [saveLastConversation (withMessages conversation updated)] ∧
    completion (chat (exec h w)) = null ∧
    isLoading (chat (exec h w)) = false ∧
    (truthy_opt (id d) = true →
     ∀ i m, prev !! i = Some m → id m = id d →
       (∀ j m', prev !! j = Some m' → j < i → id m' ≠ id d) →
       updated = <[i:=d]> prev ∧ updated !! i = Some d ∧
       length updated = length prev) ∧
    (truthy_opt (id d) = false ∨ (∀ m, m ∈ prev → id m ≠ id d) →
     updated = prev ++ [d] ∧ length updated = S (length prev)).
Proof.
  cbv zeta. exists (upsert (messages (chat w)) d).
  unfold issued. rewrite handleAddMessage_exec. simpl.
  rewrite drop_app_length. split_and!; try done.
  - intros Hid i m Hi Hm Hleast.
    rewrite (upsert_found _ d i m) by done.
    split_and!; [done| |by rewrite length_insert].
    apply list_lookup_insert_eq. by eapply lookup_lt_Some.
  - intros Hfresh. rewrite upsert_fresh by done.
    split; [done|]. rewrite length_app. simpl. lia.
Qed.

(** Both cases of the amended C8 on concrete events: an update of the
    streamed answer, and a first message on an undefined list. *)
Lemma handleAddMessage_upsert_witness :
  (∃ updated,
     messages (chat (exec (handleAddMessage None
        (mkServerMessage twinnyAddMessage (Some msg_final)))
        (world_with (Some [msg_question; msg_partial])))) = Some updated ∧
     updated = [msg_question; msg_final]) ∧
  (∃ updated,
     messages (chat (exec (handleAddMessage None
        (mkServerMessage twinnyAddMessage (Some msg_question)))
        (world_with None))) = Some updated ∧
     updated = [msg_question]).
Proof.
  split.
  - destruct (handleAddMessage_upsert None twinnyAddMessage msg_final
                (world_with (Some [msg_question; msg_partial])))
      as (updated & Hm & _ & _ & _ & Hfound & _).
    exists updated. split; [exact Hm|].
    apply (Hfound eq_refl 1 msg_partial eq_refl eq_refl).
    intros [|[|j]] m' Hj Hlt; simpl in *; [by inversion Hj|lia|lia].
  - destruct (handleAddMessage_upsert None twinnyAddMessage msg_question
                (world_with None))
      as (updated & Hm & _ & _ & _ & _ & Hfresh).
    exists updated. split; [exact Hm|].
    apply Hfresh. by left.
Defined.

(** ** Properties of the string operations *)

Section StringFacts.

Implicit Types s pat pre post template : jsstring.

Lemma startsWith_spec pat s :
  startsWith pat s = true ↔ ∃ post, s = pat ++ post.
Proof.
  revert s. induction pat as [|a pat IH]; intros s; simpl.
  - split; [eauto|done].
  - destruct s as [|b s]; [split; [done|by intros [? [=]]]|].
    rewrite andb_true_iff, N.eqb_eq, IH. split.
    + intros [-> [post ->]]. eauto.
    + intros [post [= -> ->]]. eauto.
Qed.

Lemma occursAt_0 pat s : occursAt pat s 0 ↔ startsWith pat s = true.
Proof.
  rewrite startsWith_spec. split.
  - intros ([|??] & post & -> & Hlen); [eauto|done].
  - intros [post ->]. by exists [], post.
Qed.

Lemma occursAt_S pat c s k : occursAt pat (c :: s) (S k) ↔ occursAt pat s k.
Proof.
  split.
  - intros ([|c' pre] & post & Heq & Hlen); [done|].
    injection Heq as -> ->. injection Hlen as Hlen. by exists pre, post.
  - intros (pre & post & -> & Hlen). exists (c :: pre), post. simpl. eauto.
Qed.

Lemma occursAt_nil pat k : occursAt pat [] (S k) → False.
Proof. intros ([|??] & post & Heq & Hlen); done. Qed.

Lemma indexOf_Some s pat n : indexOf s pat = Some n → firstOccurrence pat s n.
Proof.
  revert n. induction s as [|c s IH]; intros n; simpl.
  - destruct (startsWith pat []) eqn:Hsw; [|done].
    intros [= <-]. split; [by apply occursAt_0|lia].
  - destruct (startsWith pat (c :: s)) eqn:Hsw.
    + intros [= <-]. split; [by apply occursAt_0|lia].
    + destruct (indexOf s pat) as [n'|]; [|done]. intros [= <-].
      destruct (IH n' eq_refl) as [Hocc Hleast]. split.
      * by apply occursAt_S.
      * intros [|k] Hk.
        -- rewrite occursAt_0. congruence.
        -- rewrite occursAt_S. apply Hleast. lia.
Qed.

Lemma indexOf_None s pat : indexOf s pat = None → ∀ k, ¬ occursAt pat s k.
Proof.
  induction s as [|c s IH]; simpl.
  - destruct (startsWith pat []) eqn:Hsw; [done|]. intros _ [|k].
    + rewrite occursAt_0. congruence.
    + intros Hocc. by apply occursAt_nil in Hocc.
  - destruct (startsWith pat (c :: s)) eqn:Hsw; [done|].
    destruct (indexOf s pat) as [n'|]; [done|]. intros _ [|k].
    + rewrite occursAt_0. congruence.
    + rewrite occursAt_S. by apply IH.
Qed.

Lemma firstOccurrence_indexOf s pat n :
  firstOccurrence pat s n → indexOf s pat = Some n.
Proof.
  intros [Hocc Hleast]. destruct (indexOf s pat) as [n'|] eqn:Hidx.
  - apply indexOf_Some in Hidx as [Hocc' Hleast']. f_equal.
    destruct (Nat.lt_trichotomy n' n) as [?|[?|?]]; [|done|].
    + by destruct (Hleast n').
    + by destruct (Hleast' n).
  - by destruct (indexOf_None _ _ Hidx n).
Qed.

Lemma getSubstitution_plain matched preceding following template :
  dollar ∉ template →
  getSubstitution matched preceding following template = template.
Proof.
  induction template as [|c template IH]; [done|]. intros Hnot.
  apply not_elem_of_cons in Hnot as [Hc Hnot]. simpl.
  destruct (N.eqb_spec c dollar); [done|].
  by rewrite IH.
Qed.


(** [replace] rewrites the first occurrence and nothing else. *)
Lemma replace_first pre pat post replacement :
  dollar ∉ replacement →
  (∀ k, k < length pre → ¬ occursAt pat (pre ++ pat ++ post) k) →
  replace (pre ++ pat ++ post) pat replacement = pre ++ replacement ++ post.
Proof.
  intros Hplain Hleast. unfold replace.
  rewrite (firstOccurrence_indexOf _ _ (length pre)).
  - rewrite take_app_length, getSubstitution_plain by done.
    by rewrite drop_app_add, drop_app_length.
  - split; [by exists pre, post|done].
Qed.

Lemma split_nonempty sep s : split sep s ≠ [].
Proof.
  destruct s as [|c s]; simpl; [done|].
  destruct (c =? sep)%N; [done|]. by destruct (split sep s).
Qed.

Lemma split_plain sep s : sep ∉ s → split sep s = [s].
Proof.
  induction s as [|c s IH]; [done|]. intros Hnot.
  apply not_elem_of_cons in Hnot as [Hc Hnot]. simpl.
  destruct (N.eqb_spec c sep); [done|]. by rewrite IH.
Qed.

Lemma split_app sep pre s :
  split sep (pre ++ sep :: s) = split sep pre ++ split sep s.
Proof.
  induction pre as [|c pre IH]; simpl.
  - by rewrite N.eqb_refl.
  - destruct (c =? sep)%N; [by rewrite IH|].
    rewrite IH. destruct (split sep pre) eqn:Hs; [|done].
    by destruct (split_nonempty sep pre).
Qed.

(** [s.split(sep).pop()] is what follows the last separator. *)
Lemma pop_split sep pre seg :
  sep ∉ seg → pop (split sep (pre ++ sep :: seg)) = Some seg.
Proof.
  intros Hnot. unfold pop.
  by rewrite split_app, last_app, (split_plain sep seg).
Qed.

Lemma pop_split_plain sep seg : sep ∉ seg → pop (split sep seg) = Some seg.
Proof. intros Hnot. unfold pop. by rewrite split_plain. Qed.

End StringFacts.

(** ** Mentions in the submitted text *)

Lemma replaceMentionsInText_cons text m ms :
  replaceMentionsInText text (m :: ms) =
  replaceMentionsInText
    (replace text (searchString (path m)) (at_sign :: name m)) ms.
Proof. done. Qed.

Lemma plain_at_name nm : dollar ∉ nm → dollar ∉ at_sign :: nm.
Proof. intros Hnm. apply not_elem_of_cons. split; [done|exact Hnm]. Qed.


(** ** Cancellation across the boundary *)

(** The webview itself does not filter progress events: one that is
    delivered after StopGeneration is shown again. *)
Remark onCompletion_after_stop_is_shown conversation text w :
  completion (chat (deliver conversation
     [Host.stopGenerationEvent; Host.onCompletionEvent text] w))
  = value (mkMessage assistant text None).
Proof.
  unfold deliver. simpl. run_handler.
  by destruct (disableAutoScrollRef (chat w)).
Qed.




(** ** The handlers on concrete inputs *)

Example submit_blank_is_refused :
  let w := world_editing (mkEditor (lit "  ") (mkNode (lit "doc") None None)) in
  exec (handleSubmitForm None) w = w.
Proof. reflexivity. Qed.

Example submit_while_generating_is_refused :
  let w := mkWorld (mkChat true false false
                      (Some editor_typed_and_mentioned) true
                      (Some [msg_question]) undefined) [] in
  exec (handleSubmitForm None) w = w.
Proof. reflexivity. Qed.

Example delete_inner_pair :
  messages (chat (exec (handleDeleteMessage None 1)
     (world_with (Some [msg_question; msg_partial; msg_question; msg_final]))))
  = Some [msg_question; msg_final].
Proof. reflexivity. Qed.

Example delete_last_position :
  messages (chat (exec (handleDeleteMessage None 2)
     (world_with (Some [msg_question; msg_final; msg_question]))))
  = Some [msg_question; msg_final].
Proof. reflexivity. Qed.

Example delete_keeps_single_exchange :
  exec (handleDeleteMessage None 0) (world_with (Some [msg_question; msg_final]))
  = world_with (Some [msg_question; msg_final]).
Proof. reflexivity. Qed.

Example stream_then_abort :
  let '(h1, progress) :=
    Host.llmStream_run
      (Host.llmStream_enter (Host.mkHost [] false true None false))
      [Host.part (Some (lit " he")); Host.part None;
       Host.part (Some (lit "llo "))] in
  let '(h2, late) :=
    Host.llmStream_run (Host.abort h1) [Host.part (Some (lit "!")); Host.finished] in
  progress = [Host.onCompletionEvent (lit "he");
              Host.onCompletionEvent (lit "hello ")] ∧
  late = [Host.addMessageEvent (lit "hello"); Host.stopGenerationEvent] ∧
  Host.streaming h2 = false.
Proof. by split_and!. Qed.

Example stream_cancelled_before_it_starts :
  Host.llmStream_run
    (Host.llmStream_enter (Host.abort (Host.mkHost [] false true None false)))
    [Host.part (Some (lit "he")); Host.finished]
  = (Host.mkHost [] true true (Some false) false, []).
Proof. reflexivity. Qed.

(** ** Regenerating an answer *)

Ltac run_other :=
  unfold handleRegenerateMessage, handleNewConversation, conversationEffect,
    handleDeleteMessage, runTimer, focusEditor;
  run_handler.

Lemma handleRegenerateMessage_exec (index : nat) w p :
  messages (chat w) = Some p →
  exec (handleRegenerateMessage (Z.of_nat index)) w =
  mkWorld
    (mkChat true (stopRef (chat w)) (disableAutoScrollRef (chat w))
            (editorRef (chat w)) true (Some (take index p))
            (completion (chat w)))
    (calls w ++
       [postMessage (mkClientMessage twinnyChatMessage
                       (Some (take index p)) None)]).
Proof.
  destruct w as [[g s d e l ms c] cs]. simpl. intros ->.
  run_other. by rewrite slice_prefix.
Qed.


(** X1: regenerating at a position of a defined list keeps the messages
    before that position and drops the rest, posts one chat-message
    request carrying exactly the kept messages (and no mentions), and
    sets the generating and loading flags. It does so whether or not a
    generation is already in progress, and it saves nothing. *)
Theorem handleRegenerateMessage_truncates (index : nat) w p :
  messages (chat w) = Some p →
  let h := handleRegenerateMessage (Z.of_nat index) in
  messages (chat (exec h w)) = Some (take index p) ∧
  issued h w = [postMessage (mkClientMessage twinnyChatMessage
                               (Some (take index p)) None)] ∧
  generatingRef (chat (exec h w)) = true ∧
  isLoading (chat (exec h w)) = true ∧
  completion (chat (exec h w)) = completion (chat w) ∧
  editorRef (chat (exec h w)) = editorRef (chat w).
Proof.
  intros Hp. cbv zeta. unfold issued.
  rewrite (handleRegenerateMessage_exec index w p Hp). simpl.
  by rewrite drop_app_length.
Qed.

Lemma handleRegenerateMessage_truncates_witness :
  messages (chat (exec (handleRegenerateMessage 1)
     (world_with (Some [msg_question; msg_partial]))))
  = Some [msg_question].
Proof.
  exact (proj1 (handleRegenerateMessage_truncates 1
    (world_with (Some [msg_question; msg_partial]))
    [msg_question; msg_partial] eq_refl)).
Defined.



(** ** What events from the extension host leave alone *)

Lemma addMessage_without_data_exec conversation w :
  exec (messageEventHandler conversation
          (mkServerMessage twinnyAddMessage None)) w =
  mkWorld
    (mkChat false (stopRef (chat w)) (disableAutoScrollRef (chat w))
            (editorRef (chat w)) false (messages (chat w)) null)
    (calls w).
Proof. by run_handler. Qed.

Lemma issued_app {A} (m : Act A) w l :
  calls (exec m w) = calls w ++ l → issued m w = l.
Proof. unfold issued. intros ->. apply drop_app_length. Qed.

(** The calls and the untouched parts of the state, event by event. *)
Lemma messageEventHandler_calls conversation ev w :
  ∃ l, calls (exec (messageEventHandler conversation ev) w) = calls w ++ l ∧
       filter isPost l = [] ∧
       editorRef (chat (exec (messageEventHandler conversation ev) w))
         = editorRef (chat w) ∧
       disableAutoScrollRef (chat (exec (messageEventHandler conversation ev) w))
         = disableAutoScrollRef (chat w) ∧
       (stopRef (chat w) = false →
        stopRef (chat (exec (messageEventHandler conversation ev) w)) = false) ∧
       (is_Some (messages (chat w)) →
        is_Some (messages (chat (exec (messageEventHandler conversation ev) w)))).
Proof.
  destruct ev as [ty da]. destruct ty.
  - destruct da as [d|].
    + unfold messageEventHandler. simpl. rewrite handleAddMessage_exec. simpl.
      eexists. split_and!; [done..|by eexists].
    + rewrite addMessage_without_data_exec.
      exists []. by rewrite app_nil_r.
  - unfold messageEventHandler. simpl.
    exists (if disableAutoScrollRef (chat w) then [] else [scrollToBottom]).
    run_handler. destruct (disableAutoScrollRef (chat w)); simpl;
      by rewrite ?app_nil_r.
  - exists (if disableAutoScrollRef (chat w) then [] else [scrollToBottom]).
    run_handler. destruct (disableAutoScrollRef (chat w)); simpl;
      by rewrite ?app_nil_r.
  - eexists. run_handler. rewrite <- app_assoc.
    split_and!; [done..|by eexists].
  - eexists. run_handler. by split_and!.
  - exists []. run_handler. by rewrite app_nil_r.
  - exists []. run_handler. by rewrite app_nil_r.
  - exists []. run_handler. by rewrite app_nil_r.
Qed.

(** X3: no event from the extension host makes the webview post a
    request, replace what the editor holds, or change the auto-scroll
    switch. *)
Theorem messageEventHandler_posts_nothing conversation ev w :
  let h := messageEventHandler conversation ev in
  filter isPost (issued h w) = [] ∧
  editorRef (chat (exec h w)) = editorRef (chat w) ∧
  disableAutoScrollRef (chat (exec h w)) = disableAutoScrollRef (chat w).
Proof.
  cbv zeta.
  destruct (messageEventHandler_calls conversation ev w)
    as (l & Hcalls & Hpost & He & Hd & _).
  by rewrite (issued_app _ _ _ Hcalls).
Qed.

(** ** The generating flag between a request and its end *)

Lemma deliver_cons conversation ev evs w :
  deliver conversation (ev :: evs) w
  = deliver conversation evs (exec (messageEventHandler conversation ev) w).
Proof. done. Qed.

Lemma messageEventHandler_generating conversation ev w :
  type ev ≠ twinnyStopGeneration →
  type ev ≠ twinnyNewConversation →
  (type ev = twinnyAddMessage → is_Some (data ev)) →
  generatingRef (chat (exec (messageEventHandler conversation ev) w))
  = generatingRef (chat w).
Proof.
  destruct ev as [ty da]. simpl. intros Hstop Hnew Hadd.
  destruct ty; try done;
    try (run_handler; by destruct (disableAutoScrollRef (chat w))).
  destruct (Hadd eq_refl) as [d ->].
  unfold messageEventHandler. simpl. by rewrite handleAddMessage_exec.
Qed.

(** X4: progress events leave the generating flag as it is: any
    sequence of events other than StopGeneration, NewConversation and
    AddMessage without data. In particular a finished answer delivered
    by AddMessage does not reopen the form: while the flag is set, every
    submit attempt after such a sequence is refused. *)
Theorem generating_survives_progress conversation evs w :
  Forall (λ ev, type ev ≠ twinnyStopGeneration ∧
                type ev ≠ twinnyNewConversation ∧
                (type ev = twinnyAddMessage → is_Some (data ev))) evs →
  let w' := deliver conversation evs w in
  generatingRef (chat w') = generatingRef (chat w) ∧
  (generatingRef (chat w) = true →
   ∀ c e, exec (handleSubmitForm c) (exec (set_editorRef e) w')
          = exec (set_editorRef e) w').
Proof.
  intros Hevs. cbv zeta.
  assert (generatingRef (chat (deliver conversation evs w))
          = generatingRef (chat w)) as Hgen.
  { revert w. induction Hevs as [|ev evs (Hs & Hn & Ha) _ IH]; intros w; [done|].
    rewrite deliver_cons, IH. by apply messageEventHandler_generating. }
  split; [done|]. intros Htrue c e.
  apply handleSubmitForm_blocked. unfold submitBlocked. simpl.
  rewrite Hgen, Htrue. apply orb_true_r.
Qed.

Lemma generating_survives_progress_witness :
  let w' := deliver None
              [mkServerMessage twinnyOnLoading None;
               mkServerMessage twinnyOnCompletion (Some msg_partial);
               mkServerMessage twinnyAddMessage (Some msg_final)]
              (world_with (Some [msg_question])) in
  generatingRef (chat w') = true ∧
  exec (handleSubmitForm None)
       (exec (set_editorRef (Some editor_typed_and_mentioned)) w')
  = exec (set_editorRef (Some editor_typed_and_mentioned)) w'.
Proof.
  destruct (generating_survives_progress None
              [mkServerMessage twinnyOnLoading None;
               mkServerMessage twinnyOnCompletion (Some msg_partial);
               mkServerMessage twinnyAddMessage (Some msg_final)]
              (world_with (Some [msg_question]))) as [Hgen Hsub].
  - repeat constructor; simpl; try done; intros _; by eexists.
  - split; [exact Hgen|]. by apply Hsub.
Defined.

(** X5: a whole turn. A submit that is not refused and collects its
    mentions, followed by the answer (an AddMessage whose data has no
    id, or an id that no listed message carries) and by StopGeneration,
    leaves the previous messages followed by the user message and the
    answer; the partial completion is null and the loading and
    generating flags are off. The list is saved twice: by the submit
    with the conversation of the current render, and by the listener,
    which was installed at mount, with the conversation it closed over
    then. *)
Theorem submit_answer_stop mounted current w e mentions d :
  editorRef (chat w) = Some e →
  submitBlocked (chat w) = false →
  (getMentions w).1 = returned mentions →
  truthy_opt (id d) = false ∨
    (∀ m, m ∈ default [] (messages (chat w)) → id m ≠ id d) →
  let question :=
    mkMessage USER (replaceMentionsInText (trim (getText e)) mentions) None in
  let before := default [] (messages (chat w)) in
  let w' := deliver mounted
              [mkServerMessage twinnyAddMessage (Some d);
               mkServerMessage twinnyStopGeneration None]
              (exec (handleSubmitForm current) w) in
  messages (chat w') = Some (before ++ [question; d]) ∧
  completion (chat w') = null ∧
  isLoading (chat w') = false ∧
  generatingRef (chat w') = false ∧
  filter isSave (drop (length (calls w)) (calls w')) =
    [saveLastConversation (withMessages current (before ++ [question]));
     saveLastConversation (withMessages mounted (before ++ [question; d]))].
Proof.
  intros He Hguard Hmentions Hfresh. cbv zeta.
  rewrite (handleSubmitForm_exec current w e mentions He Hguard Hmentions).
  rewrite deliver_cons.
  change (messageEventHandler mounted
            (mkServerMessage twinnyAddMessage (Some d)))
    with (handleAddMessage mounted
            (mkServerMessage twinnyAddMessage (Some d))).
  rewrite handleAddMessage_exec. cbn [chat calls messages].
  rewrite upsert_fresh.
  2:{ destruct Hfresh as [Hno|Hfresh]; [by left|].
      destruct (id d) as [i|] eqn:Hid; [right|by left].
      simpl. intros m [Hm| ->%list_elem_of_singleton]%elem_of_app; [|done].
      by apply Hfresh. }
  simpl. rewrite <- !app_assoc, drop_app_length. simpl.
  split_and!; [done..|].
  by destruct (disableAutoScrollRef (chat w)).
Qed.

Lemma submit_answer_stop_witness :
  let w' := deliver None
     [mkServerMessage twinnyAddMessage (Some msg_final);
      mkServerMessage twinnyStopGeneration None]
     (exec (handleSubmitForm (Some (mkConversation (Some (lit "c1")) None [])))
           (world_editing editor_typed_and_mentioned)) in
  messages (chat w')
    = Some [mkMessage USER (lit "see @a.ts or src/a.ts") None; msg_final] ∧
  filter isSave (calls w') =
    [saveLastConversation
       (mkConversation (Some (lit "c1")) None
          [mkMessage USER (lit "see @a.ts or src/a.ts") None]);
     saveLastConversation
       (mkConversation None None
          [mkMessage USER (lit "see @a.ts or src/a.ts") None; msg_final])].
Proof.
  destruct (submit_answer_stop None
    (Some (mkConversation (Some (lit "c1")) None []))
    (world_editing editor_typed_and_mentioned) editor_typed_and_mentioned
    [mention_a_ts] msg_final eq_refl eq_refl eq_refl
    (or_intror (λ m Hm, match not_elem_of_nil m Hm with end)))
    as (Hm & _ & _ & _ & Hsaved).
  split; [exact Hm|exact Hsaved].
Defined.

(** ** Invariants of the component *)

Lemma handleRegenerateMessage_chat index w :
  chat (exec (handleRegenerateMessage index) w) =
  mkChat true (stopRef (chat w)) (disableAutoScrollRef (chat w))
         (editorRef (chat w)) true
         ((λ p, slice p 0 (Some index)) <$> messages (chat w))
         (completion (chat w)).
Proof.
  destruct w as [[g s d e l [p|] c] cs]; by run_other.
Qed.

Lemma handleDeleteMessage_chat conversation index w :
  ∃ ms, chat (exec (handleDeleteMessage conversation index) w) =
        mkChat (generatingRef (chat w)) (stopRef (chat w))
               (disableAutoScrollRef (chat w)) (editorRef (chat w))
               (isLoading (chat w)) ms (completion (chat w)) ∧
        (is_Some (messages (chat w)) → is_Some ms).
Proof.
  destruct w as [[g s d e l [p|] c] cs]; run_other; [|by eexists].
  repeat case_bool_decide; simpl; eexists; (split; [done|by eexists]).
Qed.

Lemma handleSubmitForm_cases conversation w :
  exec (handleSubmitForm conversation) w = w ∨
  ∃ eo l ms, chat (exec (handleSubmitForm conversation) w) =
             mkChat true (stopRef (chat w)) (disableAutoScrollRef (chat w))
                    eo l ms (completion (chat w)) ∧
             (is_Some (messages (chat w)) → is_Some ms).
Proof.
  destruct (submitBlocked (chat w)) eqn:Hguard.
  { left. by apply handleSubmitForm_blocked. }
  destruct (editorRef (chat w)) as [e|] eqn:He;
    [|by rewrite submitBlocked_no_editor in Hguard].
  right. destruct ((getMentions w).1) as [mentions|err] eqn:Hmentions.
  - rewrite (handleSubmitForm_exec conversation w e mentions He Hguard Hmentions).
    do 3 eexists. split; [done|]. by eexists.
  - unfold exec.
    rewrite (handleSubmitForm_exec_threw conversation w err Hguard Hmentions).
    do 3 eexists. by split.
Qed.

(** The outcome of a handler is not looked at by the event loop. *)
Lemma exec_discard {A} (m : Act A) w : exec (m;; mret tt) w = exec m w.
Proof. unfold exec, mbind, mret, Act_bind, Act_ret. by destruct (m w). Qed.

(** Each action keeps a lowered stop flag lowered and a defined message
    list defined. *)
Lemma perform_keeps a w :
  (stopRef (chat w) = false → stopRef (chat (exec (perform a) w)) = false) ∧
  (is_Some (messages (chat w)) →
   is_Some (messages (chat (exec (perform a) w)))).
Proof.
  destruct a as [c ev|c|index|c index| | |cb|c|e]; simpl.
  - destruct (messageEventHandler_calls c ev w) as (l & _ & _ & _ & _ & Hs & Hm).
    done.
  - rewrite exec_discard.
    destruct (handleSubmitForm_cases c w) as [->|(eo & l & ms & -> & Hms)];
      done.
  - rewrite handleRegenerateMessage_chat. simpl. split; [done|].
    intros [p ->]. by eexists.
  - destruct (handleDeleteMessage_chat c index w) as (ms & -> & Hms). done.
  - by run_other.
  - by run_other.
  - destruct cb; run_other; try done.
    by destruct (editorRef (chat w)).
  - destruct c as [c|]; run_other; [|done].
    case_bool_decide; simpl; [|done]. split; [done|by eexists].
  - by run_other.
Qed.

(** X6: the stop flag is never raised. Whatever the component receives
    and whatever the user does (events, submits, regenerations,
    deletions, clicks, timers, edits), a stop flag that is off stays off. *)
Theorem stopRef_stays_off actions w :
  stopRef (chat w) = false →
  stopRef (chat (performAll actions w)) = false.
Proof.
  revert w. induction actions as [|a actions IH]; intros w Hoff; [done|].
  apply IH. by apply perform_keeps.
Qed.

Lemma stopRef_stays_off_witness :
  stopRef (chat (performAll
    [submit None;
     receive None (mkServerMessage twinnyOnCompletion (Some msg_partial));
     stopClick;
     receive None (mkServerMessage twinnyStopGeneration None);
     fire focusChat]
    (world_editing editor_typed_and_mentioned))) = false.
Proof. by apply stopRef_stays_off. Defined.

(** X7: once the message list is defined it stays defined: no action
    puts it back to undefined. *)
Theorem messages_stay_defined actions w :
  is_Some (messages (chat w)) →
  is_Some (messages (chat (performAll actions w))).
Proof.
  revert w. induction actions as [|a actions IH]; intros w Hsome; [done|].
  apply IH. by apply perform_keeps.
Qed.

Lemma messages_stay_defined_witness :
  is_Some (messages (chat (performAll
    [regenerate 0; delete None 5; newConversationClick;
     receive None (mkServerMessage twinnyNewConversation None)]
    (world_with (Some [msg_question; msg_final]))))).
Proof. apply messages_stay_defined. by eexists. Defined.

(** ** The content and the mentions of a submitted message *)

Lemma getSubstitution_at matched preceding following nm :
  getSubstitution matched preceding following (at_sign :: nm)
  = at_sign :: getSubstitution matched preceding following nm.
Proof. done. Qed.

Lemma replace_at_nonempty s pat nm :
  s ≠ [] → replace s pat (at_sign :: nm) ≠ [].
Proof.
  intros Hs. unfold replace. destruct (indexOf s pat) as [pos|]; [|done].
  rewrite getSubstitution_at. by destruct (take pos s).
Qed.

Lemma replaceMentionsInText_nonempty text ms :
  text ≠ [] → replaceMentionsInText text ms ≠ [].
Proof.
  revert text. induction ms as [|m ms IH]; intros text Htext; [done|].
  rewrite replaceMentionsInText_cons. by apply IH, replace_at_nonempty.
Qed.

(** X8: a submit never appends an empty message. When the attempt is
    not refused and the mentions are collected, the user message that
    is appended has non-empty content, whatever the mentions are; when
    collecting them throws, no message is appended at all. *)
Theorem submitted_message_not_empty conversation w :
  submitBlocked (chat w) = false →
  let h := handleSubmitForm conversation in
  match (getMentions w).1 with
  | returned _ =>
      ∃ m, messages (chat (exec h w))
             = Some (default [] (messages (chat w)) ++ [m]) ∧
           role m = USER ∧ content m ≠ []
  | threw _ => messages (chat (exec h w)) = messages (chat w)
  end.
Proof.
  intros Hguard. cbv zeta.
  destruct ((getMentions w).1) as [mentions|err] eqn:Hmentions.
  - destruct (editorRef (chat w)) as [e|] eqn:He;
      [|by rewrite submitBlocked_no_editor in Hguard].
    rewrite (handleSubmitForm_exec conversation w e mentions He Hguard Hmentions).
    eexists. split_and!; [done..|]. simpl.
    apply replaceMentionsInText_nonempty.
    unfold submitBlocked in Hguard. rewrite (editorText_Some _ e He) in Hguard.
    apply orb_false_elim in Hguard as [Hempty _].
    by apply bool_decide_eq_false in Hempty.
  - unfold exec.
    by rewrite (handleSubmitForm_exec_threw conversation w err Hguard Hmentions).
Qed.

Lemma submitted_message_not_empty_witness :
  (∃ m, messages (chat (exec (handleSubmitForm None)
                          (world_editing editor_typed_and_mentioned)))
          = Some ([] ++ [m]) ∧
        role m = USER ∧ content m ≠ []) ∧
  messages (chat (exec (handleSubmitForm None)
                    (world_editing editor_mention_without_id))) = None.
Proof.
  split.
  - exact (submitted_message_not_empty None
             (world_editing editor_typed_and_mentioned) eq_refl).
  - exact (submitted_message_not_empty None
             (world_editing editor_mention_without_id) eq_refl).
Defined.

(** What [split("/").pop()] returns, for every path: the part after
    the last separator. *)
Lemma pop_split_suffix sep s :
  ∃ dir seg, pop (split sep s) = Some seg ∧ s = dir ++ seg ∧ (sep ∉ seg) ∧
             (dir = [] ∨ last dir = Some sep).
Proof.
  destruct (decide (sep ∈ s)) as [Hin|Hnot].
  - apply list_elem_of_split_r in Hin as (l1 & l2 & -> & Hl2).
    exists (l1 ++ [sep]), l2. rewrite <- app_assoc. simpl.
    split_and!; [by apply pop_split|done|done|].
    right. apply last_snoc.
  - exists [], s. split_and!; [by apply pop_split_plain|done|done|by left].
Qed.

(** X9: when a mention node has no label, or an empty one, and its id
    is a string, the mention is collected and its name is the part of
    the id after the last slash: it contains no slash, and the id is
    that name preceded by nothing or by a directory part ending in a
    slash. *)
Theorem mention_fallback_name a i :
  truthy_opt (label a) = false →
  attr_id a = value i →
  ∃ m dir, mentionOf a = returned m ∧
           path m = value i ∧
           i = dir ++ name m ∧
           (slash ∉ name m) ∧
           (dir = [] ∨ last dir = Some slash).
Proof.
  intros Hl Hi. destruct (pop_split_suffix slash i)
    as (dir & seg & Hpop & Hid & Hseg & Hdir).
  exists (mkMention seg (value i)), dir. split_and!; [|done..].
  unfold mentionOf. rewrite Hl, Hi. simpl. rewrite Hpop.
  unfold orElse. simpl. by destruct seg.
Qed.

Lemma mention_fallback_name_witness :
  ∃ m dir, mentionOf (mkAttrs None (value (lit "src/webview/chat.tsx")))
             = returned m ∧
           path m = value (lit "src/webview/chat.tsx") ∧
           lit "src/webview/chat.tsx" = dir ++ name m ∧
           (slash ∉ name m) ∧
           (dir = [] ∨ last dir = Some slash).
Proof.
  exact (mention_fallback_name
           (mkAttrs None (value (lit "src/webview/chat.tsx")))
           (lit "src/webview/chat.tsx") eq_refl eq_refl).
Defined.

(** ** Names with dollar signs *)

Lemma getSubstitution_safe matched preceding following template :
  dollarSafe template = true →
  getSubstitution matched preceding following template = template.
Proof.
  induction template as [|c rest IH]; [done|]. simpl.
  intros [Hc Hrest]%andb_true_iff.
  destruct (c =? dollar)%N; [|by rewrite IH].
  destruct rest as [|d rest']; [done|].
  unfold isSpecialAfterDollar in Hc.
  apply negb_true_iff in Hc.
  repeat (apply orb_false_elim in Hc as [Hc ?]).
  rewrite Hc. repeat match goal with H : (_ =? _)%N = false |- _ => rewrite H; clear H end.
  by rewrite IH.
Qed.

Lemma getSubstitution_app_plain matched preceding following x template :
  dollar ∉ x →
  getSubstitution matched preceding following (x ++ template)
  = x ++ getSubstitution matched preceding following template.
Proof.
  induction x as [|c x IH]; [done|]. intros Hnot.
  apply not_elem_of_cons in Hnot as [Hc Hnot]. simpl.
  destruct (N.eqb_spec c dollar); [done|]. by rewrite IH.
Qed.

(** [replace] at the first occurrence, for any replacement text. *)
Lemma replace_first_subst pre pat post replacement :
  (∀ k, k < length pre → ¬ occursAt pat (pre ++ pat ++ post) k) →
  replace (pre ++ pat ++ post) pat replacement
  = pre ++ getSubstitution pat pre post replacement ++ post.
Proof.
  intros Hleast. unfold replace.
  rewrite (firstOccurrence_indexOf _ _ (length pre)).
  - by rewrite take_app_length, drop_app_add, drop_app_length.
  - split; [by exists pre, post|done].
Qed.

(** X10: a mention is shown under its name as it is, dollar signs
    included, as long as no dollar sign of the name is followed by [$],
    [&], a backquote or a quote (route files such as [$id.tsx] are of
    this kind): the first occurrence of the path becomes [@] followed by
    the name. *)
Theorem mention_name_shown_literally m pre post :
  dollarSafe (name m) = true →
  (∀ k, k < length pre →
        ¬ occursAt (searchString (path m))
                   (pre ++ searchString (path m) ++ post) k) →
  replaceMentionsInText (pre ++ searchString (path m) ++ post) [m]
  = pre ++ at_sign :: name m ++ post.
Proof.
  intros Hsafe Hfirst. unfold replaceMentionsInText. simpl.
  rewrite replace_first_subst by done.
  by rewrite getSubstitution_at, getSubstitution_safe.
Qed.

Lemma mention_name_shown_literally_witness :
  replaceMentionsInText (lit "open app/routes/$id.tsx now")
    [mkMention (lit "$id.tsx") (value (lit "app/routes/$id.tsx"))]
  = lit "open @$id.tsx now".
Proof.
  refine (mention_name_shown_literally
            (mkMention (lit "$id.tsx") (value (lit "app/routes/$id.tsx")))
            (lit "open ") (lit " now") eq_refl _).
  apply (indexOf_Some (lit "open app/routes/$id.tsx now")
           (lit "app/routes/$id.tsx") 5).
  reflexivity.
Defined.

(** X11: a doubled dollar sign in the name of a mention is shown as a
    single one: with a name [x$$y], [x] free of dollar signs and [y]
    safe in the sense above, the first occurrence of the path becomes
    [@x$y]. *)
Theorem mention_name_loses_dollar m x y pre post :
  name m = x ++ [dollar; dollar] ++ y →
  dollar ∉ x →
  dollarSafe y = true →
  (∀ k, k < length pre →
        ¬ occursAt (searchString (path m))
                   (pre ++ searchString (path m) ++ post) k) →
  replaceMentionsInText (pre ++ searchString (path m) ++ post) [m]
  = pre ++ at_sign :: x ++ [dollar] ++ y ++ post.
Proof.
  intros Hname Hx Hy Hfirst. unfold replaceMentionsInText. simpl.
  rewrite replace_first_subst by done.
  rewrite getSubstitution_at, Hname, getSubstitution_app_plain by done.
  simpl. rewrite getSubstitution_safe by done.
  by rewrite <- !app_assoc.
Qed.

Lemma mention_name_loses_dollar_witness :
  replaceMentionsInText (lit "see lib/a$$b.ts")
    [mkMention (lit "a$$b.ts") (value (lit "lib/a$$b.ts"))]
  = lit "see @a$b.ts".
Proof.
  refine (mention_name_loses_dollar
            (mkMention (lit "a$$b.ts") (value (lit "lib/a$$b.ts")))
            (lit "a") (lit "b.ts") (lit "see ") [] eq_refl _ eq_refl _).
  - compute_done.
  - apply (indexOf_Some (lit "see lib/a$$b.ts") (lit "lib/a$$b.ts") 4).
    reflexivity.
Defined.

(** ** Mentions in text as the editor renders it *)


















(** ** Loading the messages of a conversation *)

(** X12: the effect that follows the active conversation only ever
    loads a non-empty list: after the messages of a conversation have
    been loaded, changing to a conversation without messages, or to no
    conversation, leaves the messages of the former one in place; and
    the effect itself saves and posts nothing. *)
Theorem stale_messages_after_empty_conversation a b w :
  conv_messages a ≠ [] →
  b = None ∨ (∃ c, b = Some c ∧ conv_messages c = []) →
  let w' := performAll [conversationChanged (Some a); conversationChanged b] w in
  messages (chat w') = Some (conv_messages a) ∧ calls w' = calls w.
Proof.
  intros Ha Hb. cbv zeta.
  change (performAll [conversationChanged (Some a); conversationChanged b] w)
    with (exec (conversationEffect b) (exec (conversationEffect (Some a)) w)).
  assert (exec (conversationEffect b)
            (exec (conversationEffect (Some a)) w)
          = exec (conversationEffect (Some a)) w) as ->.
  { destruct Hb as [->|(c & -> & Hc)]; [done|].
    unfold conversationEffect. rewrite Hc. done. }
  unfold conversationEffect.
  rewrite bool_decide_eq_true_2 by (by destruct (conv_messages a)).
  by run_handler.
Qed.

Lemma stale_messages_after_empty_conversation_witness :
  messages (chat (performAll
    [conversationChanged (Some (mkConversation (Some (lit "c1")) None
                                  [msg_question; msg_final]));
     conversationChanged (Some (mkConversation (Some (lit "c2")) None []))]
    (world_with None)))
  = Some [msg_question; msg_final].
Proof.
  refine (proj1 (stale_messages_after_empty_conversation
    (mkConversation (Some (lit "c1")) None [msg_question; msg_final])
    (Some (mkConversation (Some (lit "c2")) None []))
    (world_with None) _ _)).
  - done.
  - right. by eexists.
Defined.

(** ** Deleting, at any index *)

Lemma handleDeleteMessage_calls conversation index w :
  ∃ l, calls (exec (handleDeleteMessage conversation index) w) = calls w ++ l ∧
       filter isPost l = [].
Proof.
  destruct w as [[g s d e l [p|] c] cs]; run_other;
    [|exists []; by rewrite app_nil_r].
  repeat case_bool_decide; simpl;
    first [by eexists | exists []; by rewrite app_nil_r].
Qed.

(** X13: deleting never posts a request and never touches the flags,
    the partial completion or the editor, for any index whatsoever. *)
Theorem handleDeleteMessage_only_edits_list conversation index w :
  let h := handleDeleteMessage conversation index in
  filter isPost (issued h w) = [] ∧
  generatingRef (chat (exec h w)) = generatingRef (chat w) ∧
  isLoading (chat (exec h w)) = isLoading (chat w) ∧
  completion (chat (exec h w)) = completion (chat w) ∧
  editorRef (chat (exec h w)) = editorRef (chat w).
Proof.
  cbv zeta.
  destruct (handleDeleteMessage_calls conversation index w) as (l & Hl & Hpost).
  destruct (handleDeleteMessage_chat conversation index w) as (ms & -> & _).
  by rewrite (issued_app _ _ _ Hl).
Qed.

(** X14: deleting at a position at or beyond the end of a list (one
    that is neither empty nor two messages long) removes nothing, but
    the unchanged list is saved all the same. *)
Theorem handleDeleteMessage_beyond_end conversation (index : nat) w p :
  messages (chat w) = Some p →
  length p ≠ 0 → length p ≠ 2 →
  length p ≤ index →
  let h := handleDeleteMessage conversation (Z.of_nat index) in
  messages (chat (exec h w)) = Some p ∧
  issued h w = [saveLastConversation (withMessages conversation p)].
Proof.
  destruct w as [[g s d e l ms c] cs]. simpl. intros -> H0 H2 Hle.
  run_other. rewrite !bool_decide_eq_false_2 by done. simpl.
  rewrite slice_prefix, slice_suffix, drop_app_length.
  by rewrite take_ge, drop_ge, app_nil_r by lia.
Qed.

Lemma handleDeleteMessage_beyond_end_witness :
  issued (handleDeleteMessage None 7) (world_with (Some [msg_question]))
  = [saveLastConversation (mkConversation None None [msg_question])].
Proof.
  refine (proj2 (handleDeleteMessage_beyond_end None 7
    (world_with (Some [msg_question])) [msg_question] eq_refl _ _ _));
    simpl; lia.
Defined.

(** ** The two panels *)

Section PanelFacts.

Import Panels.

Lemma toggles_diverge seenP seenE fuel w :
  isOpen seenP = true → isOpen seenE = true →
  handleToggleProviderSelection seenP seenE fuel w = None ∧
  handleToggleEmbeddingOptions seenP seenE fuel w = None.
Proof.
  intros HP HE. revert w. induction fuel as [|fuel IH]; intros w; [done|].
  simpl. rewrite HP, HE.
  destruct (IH w) as [-> ->]. done.
Qed.

(** X15: when at most one of the two panels is open, and the handlers
    see the contexts as they are, toggling one panel returns, flips that
    panel and leaves the other one closed; so at most one panel is open
    afterwards. Each flip is posted with its key and new value. *)
Theorem toggle_keeps_one_panel fuel w :
  let seenP := showProvidersContext w in
  let seenE := showEmbeddingOptionsContext w in
  isOpen seenP && isOpen seenE = false →
  (∃ w', handleToggleProviderSelection seenP seenE (S (S fuel)) w = Some w' ∧
         isOpen (showProvidersContext w') = negb (isOpen seenP) ∧
         isOpen (showEmbeddingOptionsContext w') = false ∧
         posted w' = posted w ++
           (if isOpen seenE then [(showEmbeddingOptions, false)] else []) ++
           [(showProviders, negb (isOpen seenP))]) ∧
  (∃ w', handleToggleEmbeddingOptions seenP seenE (S (S fuel)) w = Some w' ∧
         isOpen (showEmbeddingOptionsContext w') = negb (isOpen seenE) ∧
         isOpen (showProvidersContext w') = false ∧
         posted w' = posted w ++
           (if isOpen seenP then [(showProviders, false)] else []) ++
           [(showEmbeddingOptions, negb (isOpen seenE))]).
Proof.
  destruct w as [p e ps]. simpl. intros Hone.
  destruct (isOpen p) eqn:Hp, (isOpen e) eqn:He; try done;
    (split; eexists; (split; [reflexivity|])); simpl;
    unfold flipped; simpl; rewrite ?Hp, ?He, <- ?app_assoc; done.
Qed.

Lemma toggle_keeps_one_panel_witness :
  ∃ w', handleToggleProviderSelection None (Some true) 2
          (mkPanels None (Some true) []) = Some w' ∧
        isOpen (showProvidersContext w') = true ∧
        isOpen (showEmbeddingOptionsContext w') = false ∧
        posted w' = [(showEmbeddingOptions, false); (showProviders, true)].
Proof.
  exact (proj1 (toggle_keeps_one_panel 0 (mkPanels None (Some true) [])
                  eq_refl)).
Defined.

(** X16: when the handlers see both panels open, neither of them ever
    returns: each calls the other before doing anything else, whatever
    depth of calls is allowed. *)
Theorem toggle_never_returns_when_both_open seenP seenE w :
  isOpen seenP = true → isOpen seenE = true →
  ∀ fuel,
    handleToggleProviderSelection seenP seenE fuel w = None ∧
    handleToggleEmbeddingOptions seenP seenE fuel w = None.
Proof. intros HP HE fuel. by apply toggles_diverge. Qed.

Lemma toggle_never_returns_when_both_open_witness :
  handleToggleEmbeddingOptions (Some true) (Some true) 1000
    (mkPanels (Some true) (Some true) []) = None.
Proof.
  exact (proj2 (toggle_never_returns_when_both_open (Some true) (Some true)
                  (mkPanels (Some true) (Some true) []) eq_refl eq_refl 1000)).
Defined.

End PanelFacts.

(** ** Mentions below the top level *)

Lemma nodeMentions_skipped nodes :
  Forall (λ node, node_type node ≠ lit "paragraph" ∨ node_content node = None)
         nodes →
  docMentions nodes = returned [].
Proof.
  induction 1 as [|node nodes Hnode _ IH]; [done|].
  simpl. rewrite IH.
  unfold nodeMentions. destruct Hnode as [Hty| ->].
  - by rewrite bool_decide_eq_false_2.
  - by case_bool_decide.
Qed.

(** X17: mentions are collected from the paragraphs at the top level of
    the document only. When no top-level node is a paragraph with
    content (the mentions sit in a list or a quote, say), a submit that
    is not refused collects no mention: the request carries an empty
    mention list and the user message is the trimmed text as typed,
    paths included. *)
Theorem nested_mentions_not_collected conversation w e nodes :
  editorRef (chat w) = Some e →
  submitBlocked (chat w) = false →
  node_content (getJSON e) = Some nodes →
  Forall (λ node, node_type node ≠ lit "paragraph" ∨ node_content node = None)
         nodes →
  let h := handleSubmitForm conversation in
  let updated :=
    default [] (messages (chat w)) ++ [mkMessage USER (trim (getText e)) None] in
  messages (chat (exec h w)) = Some updated ∧
  filter isPost (issued h w) =
    [postMessage (mkClientMessage twinnyChatMessage (Some updated) (Some []))].
Proof.
  intros He Hguard Hnodes Hskip. cbv zeta.
  assert ((getMentions w).1 = returned []) as Hnone.
  { unfold getMentions, gets, mbind, mret, Act_bind, Act_ret. simpl.
    rewrite He. simpl. rewrite Hnodes. by apply nodeMentions_skipped. }
  unfold issued.
  rewrite (handleSubmitForm_exec conversation w e [] He Hguard Hnone).
  cbn [chat calls messages]. rewrite drop_app_length.
  split; [done|]. by destruct (disableAutoScrollRef (chat w)).
Qed.

Lemma nested_mentions_not_collected_witness :
  messages (chat (exec (handleSubmitForm None)
                    (world_editing editor_mention_in_list)))
  = Some [mkMessage USER (lit "src/a.ts") None].
Proof.
  refine (proj1 (nested_mentions_not_collected None
    (world_editing editor_mention_in_list) editor_mention_in_list _
    eq_refl eq_refl eq_refl _)).
  constructor; [by left|constructor].
Defined.

(** ** An answer delivered twice *)

Lemma upsert_again prev d :
  truthy_opt (id d) = true →
  upsert (Some (upsert prev d)) d = upsert prev d.
Proof.
  intros Hid. unfold upsert. rewrite Hid. simpl.
  set (a := default [] prev).
  destruct (list_find (λ m, id m = id d) a) as [[i x]|] eqn:Hf.
  - apply list_find_Some in Hf as (Hi & _ & Hleast).
    assert (list_find (λ m, id m = id d) (<[i:=d]> a) = Some (i, d)) as ->.
    { apply list_find_Some. split_and!; [|done|].
      - apply list_lookup_insert_eq. by eapply lookup_lt_Some.
      - intros j y Hj Hlt. rewrite list_lookup_insert_ne in Hj by lia. eauto. }
    apply list_insert_insert_eq.
  - assert (list_find (λ m, id m = id d) (a ++ [d]) = Some (length a, d)) as ->.
    { apply list_find_Some. split_and!; [|done|].
      - by rewrite lookup_app_r, Nat.sub_diag.
      - intros j y Hj Hlt. rewrite lookup_app_l in Hj by done.
        apply list_find_None in Hf.
        by apply (Forall_lookup_1 _ _ _ _ Hf Hj). }
    apply list_insert_id. by rewrite lookup_app_r, Nat.sub_diag.
Qed.

(** X18: an AddMessage event delivered twice. When its data carries a
    non-empty id, the second delivery replaces the message put there by
    the first, so the list is the same as after one delivery; when it
    carries no id or an empty one, the message is in the list twice. *)
Theorem addMessage_delivered_twice conversation d w :
  let ev := mkServerMessage twinnyAddMessage (Some d) in
  messages (chat (deliver conversation [ev; ev] w)) =
  if truthy_opt (id d)
  then messages (chat (deliver conversation [ev] w))
  else Some (default [] (messages (chat w)) ++ [d; d]).
Proof.
  cbv zeta. unfold deliver. simpl.
  change (messageEventHandler conversation
            (mkServerMessage twinnyAddMessage (Some d)))
    with (handleAddMessage conversation
            (mkServerMessage twinnyAddMessage (Some d))).
  rewrite !handleAddMessage_exec. cbn [chat messages].
  destruct (truthy_opt (id d)) eqn:Hid.
  - by rewrite upsert_again.
  - rewrite !upsert_fresh by (by left). simpl. by rewrite <- app_assoc.
Qed.

(** ** The three ways a submit attempt ends *)

(** X19: a submit attempt ends in one of three ways. Refused (the
    editor text trims to the empty string or the generating flag is
    set), it changes nothing and posts nothing. Otherwise, when the
    mentions are collected, it sets the generating and loading flags,
    appends exactly one user message and posts exactly one chat-message
    request carrying the new list and the mentions. Otherwise
    collecting the mentions throws: the handler ends with that error,
    only the generating flag has changed, and nothing is posted or
    saved. *)
Theorem handleSubmitForm_outcomes conversation w :
  let h := handleSubmitForm conversation in
  if submitBlocked (chat w) then h w = (returned tt, w)
  else
    match (getMentions w).1 with
    | returned mentions =>
        let updated :=
          default [] (messages (chat w)) ++
          [mkMessage USER
             (replaceMentionsInText (trim (editorText (chat w))) mentions)
             None] in
        (h w).1 = returned tt ∧
        generatingRef (chat (exec h w)) = true ∧
        isLoading (chat (exec h w)) = true ∧
        messages (chat (exec h w)) = Some updated ∧
        filter isPost (issued h w) =
          [postMessage (mkClientMessage twinnyChatMessage (Some updated)
                          (Some mentions))]
    | threw err =>
        (h w).1 = threw err ∧
        exec h w =
          mkWorld
            (mkChat true (stopRef (chat w)) (disableAutoScrollRef (chat w))
                    (editorRef (chat w)) (isLoading (chat w))
                    (messages (chat w)) (completion (chat w)))
            (calls w)
    end.
Proof.
  cbv zeta. destruct (submitBlocked (chat w)) eqn:Hguard.
  { rewrite <- submit_guard in Hguard.
    destruct w as [c cs]. simpl in *. run_submit. by rewrite Hguard. }
  destruct ((getMentions w).1) as [mentions|err] eqn:Hmentions.
  - destruct (editorRef (chat w)) as [e|] eqn:He;
      [|by rewrite submitBlocked_no_editor in Hguard].
    unfold issued.
    rewrite (handleSubmitForm_exec conversation w e mentions He Hguard Hmentions).
    rewrite (editorText_Some _ e He). cbn [chat calls].
    rewrite drop_app_length. split_and!; [|done..|].
    + rewrite <- submit_guard in Hguard.
      destruct w as [[g s d eo l ms cp] cs]. simpl in *. subst eo.
      unfold getMentions, gets, mbind, mret, Act_bind, Act_ret in Hmentions.
      simpl in Hmentions.
      run_submit. simpl in Hguard. rewrite Hguard. simpl. rewrite Hmentions.
      by destruct d.
    + simpl. by destruct (disableAutoScrollRef (chat w)).
  - unfold exec.
    by rewrite (handleSubmitForm_exec_threw conversation w err Hguard Hmentions).
Qed.

(** ** Submits while a generation is in progress *)

Lemma perform_generating a w :
  keepsGenerating a →
  generatingRef (chat w) = true →
  generatingRef (chat (exec (perform a) w)) = true.
Proof.
  destruct a as [c ev|c|index|c index| | |cb|c|e]; simpl; intros Hkeep Hgen.
  - destruct Hkeep as (Hs & Hn & Ha).
    by rewrite messageEventHandler_generating.
  - rewrite exec_discard.
    by rewrite handleSubmitForm_blocked by by apply submitBlocked_generating.
  - by rewrite handleRegenerateMessage_chat.
  - by destruct (handleDeleteMessage_chat c index w) as (ms & -> & _).
  - by run_other.
  - by run_other.
  - destruct cb; run_other; try done. by destruct (editorRef (chat w)).
  - destruct c as [c|]; run_other; [|done]. by case_bool_decide.
  - by run_other.
Qed.

(** X20: while a generation is in progress no submit starts another
    one. From a state with the generating flag set, through any
    sequence of actions that holds no StopGeneration or NewConversation
    event and no AddMessage event without data (progress events,
    answers, edits, deletions, regenerations, clicks, timers), the flag
    stays set, and every submit attempt in the sequence leaves the
    component exactly as it found it. *)
Theorem submits_refused_while_generating actions w :
  Forall keepsGenerating actions →
  generatingRef (chat w) = true →
  generatingRef (chat (performAll actions w)) = true ∧
  ∀ before c after,
    actions = before ++ submit c :: after →
    exec (perform (submit c)) (performAll before w) = performAll before w.
Proof.
  intros Hkeep Hgen.
  assert (∀ acts w, Forall keepsGenerating acts → generatingRef (chat w) = true →
                    generatingRef (chat (performAll acts w)) = true) as Hall.
  { clear. intros acts. induction acts as [|a acts IH]; intros w Hk Hg; [done|].
    apply Forall_cons in Hk as [Ha Hk]. apply IH; [done|].
    by apply perform_generating. }
  split; [by apply Hall|].
  intros before c after ->. apply Forall_app in Hkeep as [Hbefore _].
  simpl. rewrite exec_discard.
  apply handleSubmitForm_blocked, submitBlocked_generating. by apply Hall.
Qed.

Lemma submits_refused_while_generating_witness :
  let actions :=
    [receive None (mkServerMessage twinnyOnCompletion (Some msg_partial));
     edit (Some editor_two_mentions);
     submit None;
     receive None (mkServerMessage twinnyAddMessage (Some msg_final));
     submit None] in
  let w := exec (handleSubmitForm None)
             (world_editing editor_typed_and_mentioned) in
  generatingRef (chat (performAll actions w)) = true ∧
  filter isPost (calls (performAll actions w)) = filter isPost (calls w).
Proof.
  cbv zeta. split.
  - apply submits_refused_while_generating; [|reflexivity].
    repeat constructor; simpl; try done; intros _; by eexists.
  - reflexivity.
Defined.
